(** * Autoplay: the autoplay component of the slider

    A shallow embedding of [src/js/components/Autoplay/Autoplay.ts] and the
    properties of its play/pause state machine and of its shuffle buffer.

    The component is a closure over a handful of mutable variables
    ([stopped], [hovered], [focused], [shuffleBuffer]) and over the objects
    it is given ([Splide], [Components], [options]).  The embedding passes
    the mutable part around as a [State] record.  JavaScript arrays live in
    a store and are designated by references, so that mutation in place
    ([shift], [push], the swaps of [shuffleArray]) and the copy made by
    [[ ...arr ]] are what they are in the source.  Calls on the
    collaborators (the timer, the event bus, [Splide.go]) are recorded in a
    trace.  [onAnimationFrame], which forwards the progress rate, and
    [destroy], which is [interval.cancel], are not part of the embedding. *)

From Stdlib Require Import ZArith QArith Lia List Permutation.
From stdpp Require Import base option list strings.

Local Open Scope nat_scope.

(** ** JavaScript values used by the component *)

(** A JavaScript number, as far as the component looks at it: it is only
    ever tested for truthiness and handed on to the timer.  Finite values
    are kept as rationals; the rounding of IEEE doubles plays no part. *)
Inductive number : Type :=
  | NaN
  | Infinity (negative : bool)
  | Finite (q : Q).

(** [ToBoolean] on numbers: [NaN], [+0] and [-0] are falsy. *)
Definition ToBoolean (n : number) : bool :=
  match n with
  | NaN => false
  | Infinity _ => true
  | Finite q => negb (Qnum q =? 0)%Z
  end.

(** [a || b] on numbers. *)
Definition number_or (a b : number) : number :=
  if ToBoolean a then a else b.

(** A value of [Math.random()]: a number in the half-open interval from 0
    to 1, here the fraction [numer / (numer + below_one + 1)]. *)
Record fraction : Type := { numer : nat; below_one : nat }.

(** [Math.floor( u * n )] for a natural number [n]. *)
Definition floor_mul (u : fraction) (n : nat) : nat :=
  (numer u * n) / (numer u + below_one u + 1).

(** ** Arrays in a store *)

(** A reference is the position of its array in the store. *)
Abbreviation ref := nat (only parsing).

Section Arrays.
Context {T : Type}.

(** The array a reference designates.  References only come from [alloc],
    so the default is never reached by the component. *)
Definition deref (h : list (list T)) (r : ref) : list T :=
  default [] (h !! r).

(** A new array, at a reference that designates nothing yet. *)
Definition alloc (h : list (list T)) (a : list T) : ref * list (list T) :=
  (length h, h ++ [a]).

(** Mutation in place of the array at [r]. *)
Definition assign (h : list (list T)) (r : ref) (a : list T) : list (list T) :=
  <[r := a]> h.

(** [arr.shift()]: removes and returns the first element, [undefined]
    ([None]) on an empty array, which it leaves as it is. *)
Definition shift (h : list (list T)) (r : ref) : option T * list (list T) :=
  match deref h r with
  | [] => (None, h)
  | x :: rest => (Some x, assign h r rest)
  end.

(** [arr.push( ...items )]. *)
Definition push (h : list (list T)) (r : ref) (items : list T) : list (list T) :=
  assign h r (deref h r ++ items).

(** [[ arr[ index ], arr[ newIndex ] ] = [ arr[ newIndex ], arr[ index ] ]]:
    both reads happen first, then [arr[ index ]] is written, then
    [arr[ newIndex ]].  In [shuffleArray] both indices are below the
    length of the array (lemmas [newIndex_le_index] and [swap_in_range]);
    outside of it JavaScript would write [undefined] and extend the array,
    which an array of [T] cannot hold, so the model leaves the array alone
    there. *)
Definition swap (a : list T) (index newIndex : nat) : list T :=
  match a !! newIndex, a !! index with
  | Some x, Some y => <[newIndex := y]> (<[index := x]> a)
  | _, _ => a
  end.

Section Shuffle.
(** The successive results of [Math.random()]: call number [k] of the
    program returns [random k]. *)
Variable random : nat -> fraction.

(** The [for] loop of [shuffleArray], from [index] down to 1, on the
    array at [arr]; [calls] counts the calls of [Math.random()]. *)
Fixpoint shuffleLoop (index : nat) (arr : ref) (h : list (list T)) (calls : nat)
  : list (list T) * nat :=
  match index with
  | 0 => (h, calls)
  | S index' =>
      let newIndex := floor_mul (random calls) (index + 1) in
      shuffleLoop index' arr (assign h arr (swap (deref h arr) index newIndex)) (S calls)
  end.

(** [shuffleArray( arr )]: the parameter is rebound to a copy, which is
    shuffled in place and returned. *)
Definition shuffleArray (arr : ref) (h : list (list T)) (calls : nat)
  : ref * list (list T) * nat :=
  let '(arr', h1) := alloc h (deref h arr) in
  let '(h2, calls') := shuffleLoop (length (deref h1 arr') - 1) arr' h1 calls in
  (arr', h2, calls').
End Shuffle.
End Arrays.

(** [range( end )]: the array [[0, 1, ..., end - 1]], the result of the
    final [map]. *)
Definition range (n : nat) (h : list (list nat)) : ref * list (list nat) :=
  alloc h (seq 0 n).

(** ** What the component is given *)

(** [options.autoplay]: [false] (or absent), [true], or ['pause']. *)
Inductive autoplay_option : Type :=
  | autoplay_false
  | autoplay_true
  | autoplay_pause.

Record Options : Type := {
  autoplay : autoplay_option;
  interval : number;
  pauseOnHover : bool;
  pauseOnFocus : bool;
  resetProgress : bool;
  autoplayShuffle : bool;
  i18n_play : string;
  i18n_pause : string;
}.

(** Modelled from the spec: the utility [getAttribute] is not part of the
    sources at hand; a slide carries "an optional data attribute", so what
    [getAttribute( Slide.slide, INTERVAL_DATA_ATTRIBUTE )] returns is the
    text of the attribute, or [null] ([None]) when the slide has none. *)
Record SlideComponent : Type := {
  interval_attribute : option string;
}.

(** What the component asks of [Components] while it runs.  The answers
    belong to other components and may differ from one call to the next,
    so every operation takes the current ones. *)
Record Components : Type := {
  Slides_getLength : nat;
  Slides_isEnough : bool;
  Slides_getAt : nat -> option SlideComponent;
  Controller_getIndex : nat;
  track_id : string;
}.

(** The argument of [Splide.go]: ['>'], a number, or [undefined]. *)
Inductive control : Type :=
  | go_next
  | go_index (i : nat)
  | go_undefined.

Inductive event : Type :=
  | EVENT_AUTOPLAY_PLAY
  | EVENT_AUTOPLAY_PAUSE.

(** The calls the component makes on its collaborators, in order. *)
Inductive effect : Type :=
  | emit (e : event)
  | interval_start (resume : bool)
  | interval_pause
  | interval_set (time : number)
  | interval_rewind
  | Splide_go (c : control).

(** Modelled from the spec: [RequestInterval] is not part of the sources at
    hand.  The timer is a handle with [start], [pause], [rewind], [set] and
    [isPaused]; it is created paused, [start] makes it run, [pause] makes it
    paused, [set] replaces its duration. *)
Record RequestInterval : Type := {
  paused : bool;
  time : number;
}.

(** Modelled from the spec: the utilities [toggleClass] and [setAttribute]
    are not part of the sources at hand.  The toggle button is kept as far
    as the component writes to it: whether it carries the class
    [CLASS_ACTIVE], and the attributes [ARIA_LABEL] and [ARIA_CONTROLS]. *)
Record ToggleElement : Type := {
  class_active : bool;
  aria_label : option string;
  aria_controls : option string;
}.

(** ** The state of the component *)

Record State : Type := {
  stopped : bool;
  hovered : option bool;        (* [None]: not assigned yet, [undefined] *)
  focused : option bool;
  shuffleBuffer : option ref;   (* [None]: [null] *)
  arrays : list (list nat);     (* the store of the arrays *)
  random_calls : nat;           (* calls of [Math.random()] so far *)
  timer : RequestInterval;
  toggle : option ToggleElement;
  listening : bool;             (* [listen()] has bound the handlers *)
  trace : list effect;
}.

Definition set_flags (s : bool) (h f : option bool) (st : State) : State :=
  {| stopped := s; hovered := h; focused := f;
     shuffleBuffer := shuffleBuffer st; arrays := arrays st;
     random_calls := random_calls st; timer := timer st; toggle := toggle st;
     listening := listening st; trace := trace st |}.

Definition set_shuffle (b : option ref) (h : list (list nat)) (calls : nat) (st : State) : State :=
  {| stopped := stopped st; hovered := hovered st; focused := focused st;
     shuffleBuffer := b; arrays := h; random_calls := calls;
     timer := timer st; toggle := toggle st;
     listening := listening st; trace := trace st |}.

Definition set_timer (t : RequestInterval) (st : State) : State :=
  {| stopped := stopped st; hovered := hovered st; focused := focused st;
     shuffleBuffer := shuffleBuffer st; arrays := arrays st;
     random_calls := random_calls st; timer := t; toggle := toggle st;
     listening := listening st; trace := trace st |}.

Definition set_toggle (t : option ToggleElement) (st : State) : State :=
  {| stopped := stopped st; hovered := hovered st; focused := focused st;
     shuffleBuffer := shuffleBuffer st; arrays := arrays st;
     random_calls := random_calls st; timer := timer st; toggle := t;
     listening := listening st; trace := trace st |}.

Definition set_listening (b : bool) (st : State) : State :=
  {| stopped := stopped st; hovered := hovered st; focused := focused st;
     shuffleBuffer := shuffleBuffer st; arrays := arrays st;
     random_calls := random_calls st; timer := timer st; toggle := toggle st;
     listening := b; trace := trace st |}.

(** A call on a collaborator is appended to the trace. *)
Definition call (e : effect) (st : State) : State :=
  {| stopped := stopped st; hovered := hovered st; focused := focused st;
     shuffleBuffer := shuffleBuffer st; arrays := arrays st;
     random_calls := random_calls st; timer := timer st; toggle := toggle st;
     listening := listening st; trace := trace st ++ [e] |}.

(** Truthiness of a flag that may still be [undefined]. *)
Definition truthy (b : option bool) : bool := default false b.

(** ** The component *)

Section Autoplay.
Variable options : Options.
Variable random : nat -> fraction.

(** The conversion of a string to a number that unary [+] performs
    (ECMAScript's StringToNumber).  It belongs to the language, not to the
    component, and is taken as it is. *)
Variable StringToNumber : string -> number.

(** Unary [+] on the result of [getAttribute]: [+null] is [0]. *)
Definition to_number (a : option string) : number :=
  match a with
  | None => Finite 0
  | Some s => StringToNumber s
  end.

(** The state right after [Autoplay( Splide, Components, options )] has
    run its declarations; [toggle0] is [Elements.toggle].  The buffer of an
    instance created with [autoplayShuffle] is the empty array. *)
Definition Autoplay (toggle0 : option ToggleElement) : State :=
  {| stopped := match autoplay options with autoplay_pause => true | _ => false end;
     hovered := None;
     focused := None;
     shuffleBuffer := if autoplayShuffle options then Some 0 else None;
     arrays := if autoplayShuffle options then [[]] else [];
     random_calls := 0;
     timer := {| paused := true; time := interval options |};
     toggle := toggle0;
     listening := false;
     trace := [] |}.

Definition isPaused (st : State) : bool := paused (timer st).

(** Modelled from the spec: the methods of the timer, which is not part of
    the sources at hand.  [interval.start( resume )] makes the timer run and
    [interval.pause()] makes it paused; [interval.set( time )] replaces its
    duration; [interval.rewind()] restarts the current interval and leaves
    the timer running or paused as it was. *)
Definition timer_start (resume : bool) (st : State) : State :=
  call (interval_start resume) (set_timer {| paused := false; time := time (timer st) |} st).

Definition timer_pause (st : State) : State :=
  call interval_pause (set_timer {| paused := true; time := time (timer st) |} st).

Definition timer_set (t : number) (st : State) : State :=
  call (interval_set t) (set_timer {| paused := paused (timer st); time := t |} st).

Definition timer_rewind (st : State) : State :=
  call interval_rewind st.

(** [update()]: the toggle button shows the [stopped] flag. *)
Definition update (st : State) : State :=
  match toggle st with
  | Some t =>
      set_toggle (Some {| class_active := negb (stopped st);
                          aria_label := Some (if stopped st then i18n_play options
                                              else i18n_pause options);
                          aria_controls := aria_controls t |}) st
  | None => st
  end.

(** [play()]: starts autoplay and clears all flags. *)
Definition play (C : Components) (st : State) : State :=
  if isPaused st && Slides_isEnough C then
    let st := timer_start (negb (resetProgress options)) st in
    let st := set_flags false (Some false) (Some false) st in
    let st := update st in
    call (emit EVENT_AUTOPLAY_PLAY) st
  else st.

(** [pause( stop )]; the argument is a boolean, [true] when left out, so
    that [!! stop] is [stop]. *)
Definition pause (stop : bool) (st : State) : State :=
  let st := set_flags stop (hovered st) (focused st) st in
  let st := update st in
  if negb (isPaused st) then
    let st := timer_pause st in
    call (emit EVENT_AUTOPLAY_PAUSE) st
  else st.

(** [autoToggle()]: play or pause according to the flags, and nothing at
    all when autoplay has been stopped by hand. *)
Definition autoToggle (C : Components) (st : State) : State :=
  if negb (stopped st) then
    if truthy (hovered st) || truthy (focused st) then pause false st else play C st
  else st.

(** The DOM and slider events the component listens to. *)
Inductive input : Type :=
  | mouseenter
  | mouseleave
  | focusin
  | focusout
  | click                 (* on the toggle button *)
  | EVENT_MOVE (index : nat)
  | EVENT_SCROLL
  | EVENT_REFRESH.

(** The handler bound to ['mouseenter mouseleave'] on the root. *)
Definition on_mouse (C : Components) (enter : bool) (st : State) : State :=
  autoToggle C (set_flags (stopped st) (Some enter) (focused st) st).

(** The handler bound to ['focusin focusout'] on the root. *)
Definition on_focus (C : Components) (focusIn : bool) (st : State) : State :=
  autoToggle C (set_flags (stopped st) (hovered st) (Some focusIn) st).

(** The handler bound to ['click'] on the toggle button. *)
Definition on_click (C : Components) (st : State) : State :=
  if stopped st then play C st else pause true st.

(** [onMove( index )]: [Slide && +getAttribute( ... ) || options.interval].
    Without a slide the left operand of [||] is [undefined]. *)
Definition onMove (C : Components) (index : nat) (st : State) : State :=
  let Slide := Slides_getAt C index in
  timer_set
    match Slide with
    | Some Slide => number_or (to_number (interval_attribute Slide)) (interval options)
    | None => interval options
    end
    st.

(** What an event does, through the handlers that [listen()] has bound:
    each pair of handlers only if its option is set, the click handler only
    if there is a toggle button.  On [EVENT_MOVE] the timer is rewound
    first, [onMove] was registered after it. *)
Definition handle (C : Components) (e : input) (st : State) : State :=
  if listening st then
    match e with
    | mouseenter => if pauseOnHover options then on_mouse C true st else st
    | mouseleave => if pauseOnHover options then on_mouse C false st else st
    | focusin => if pauseOnFocus options then on_focus C true st else st
    | focusout => if pauseOnFocus options then on_focus C false st else st
    | click => match toggle st with Some _ => on_click C st | None => st end
    | EVENT_MOVE index => onMove C index (timer_rewind st)
    | EVENT_SCROLL => timer_rewind st
    | EVENT_REFRESH => timer_rewind st
    end
  else st.

(** [listen()] binds the handlers; [handle] says what they do. *)
Definition listen (st : State) : State := set_listening true st.

(** [mount()]: nothing unless autoplay is on; otherwise the handlers are
    bound, the toggle button is tied to the track, autoplay starts unless
    it is to start paused, and the toggle button is updated. *)
Definition mount (C : Components) (st : State) : State :=
  match autoplay options with
  | autoplay_false => st
  | _ =>
      let st := listen st in
      let st :=
        match toggle st with
        | Some t => set_toggle (Some {| class_active := class_active t;
                                        aria_label := aria_label t;
                                        aria_controls := Some (track_id C) |}) st
        | None => st
        end in
      let st := if stopped st then st else play C st in
      update st
  end.

(** ** The shuffle buffer *)

(** [initShuffle()], on the store and the count of [Math.random()] calls. *)
Definition initShuffle (C : Components) (h : list (list nat)) (calls : nat)
  : ref * list (list nat) * nat :=
  let '(r, h1) := range (Slides_getLength C) h in
  shuffleArray random r h1 calls.

Definition isNull {A : Type} (x : option A) : bool :=
  match x with None => true | Some _ => false end.

Definition shuffle (C : Components) (on : bool) (st : State) : State :=
  let st :=
    if on && isNull (shuffleBuffer st) then
      let '(r, h, calls) := initShuffle C (arrays st) (random_calls st) in
      set_shuffle (Some r) h calls st
    else st in
  if negb on && negb (isNull (shuffleBuffer st)) then
    set_shuffle None (arrays st) (random_calls st) st
  else st.

(** [shuffleBuffer = initShuffle(); nextIndex = shuffleBuffer.shift()]:
    the variable now refers to the new array. *)
Definition regenerate (C : Components) (h : list (list nat)) (calls : nat)
  : option nat * ref * list (list nat) * nat :=
  let '(buf, h, calls) := initShuffle C h calls in
  let '(nextIndex, h) := shift h buf in
  (nextIndex, buf, h, calls).

(** [if ( shuffleBuffer.length < slideLen ) shuffleBuffer.push( ...initShuffle() )]. *)
Definition refill (C : Components) (slideLen : nat)
    (buf : ref) (h : list (list nat)) (calls : nat)
  : list (list nat) * nat :=
  if length (deref h buf) <? slideLen then
    let '(fresh, h, calls) := initShuffle C h calls in
    (push h buf (deref h fresh), calls)
  else (h, calls).

(** The body of the [do ... while] of [onInterval], on the array the
    variable [shuffleBuffer] refers to ([buf]): the value drawn, and the
    variable, the store and the count of [Math.random()] calls after it.
    The entries of the buffer are numbers, so of the three tests on
    [nextIndex] the one for [null] never holds. *)
Definition draw (C : Components) (slideLen : nat)
    (buf : ref) (h : list (list nat)) (calls : nat)
  : option nat * ref * list (list nat) * nat :=
  let '(nextIndex, h) := shift h buf in
  let '(nextIndex, buf, h, calls) :=
    if match nextIndex with
       | None => true                      (* [isUndefined( nextIndex )] *)
       | Some i => slideLen <=? i          (* [nextIndex >= slideLen] *)
       end
    then regenerate C h calls
    else (nextIndex, buf, h, calls) in
  let '(h, calls) := refill C slideLen buf h calls in
  (nextIndex, buf, h, calls).

(** The [do ... while] itself, for at most [fuel] passes: [None] when the
    passes allowed are used up and the drawn value still equals
    [Components.Controller.getIndex()]. *)
Fixpoint drawLoop (fuel : nat) (C : Components) (slideLen : nat)
    (buf : ref) (h : list (list nat)) (calls : nat)
  : option (option nat * ref * list (list nat) * nat) :=
  match fuel with
  | 0 => None
  | S fuel' =>
      let '(nextIndex, buf, h, calls) := draw C slideLen buf h calls in
      if decide (nextIndex = Some (Controller_getIndex C))
      then drawLoop fuel' C slideLen buf h calls
      else Some (nextIndex, buf, h, calls)
  end.

(** [onInterval()], the tick of the timer. *)
Definition onInterval (fuel : nat) (C : Components) (st : State) : option State :=
  match shuffleBuffer st with
  | None => Some (call (Splide_go go_next) st)
  | Some buf =>
      let slideLen := Slides_getLength C in
      if slideLen <=? 2 then Some (call (Splide_go go_next) st)
      else
        match drawLoop fuel C slideLen buf (arrays st) (random_calls st) with
        | None => None
        | Some (nextIndex, buf, h, calls) =>
            Some (call (Splide_go match nextIndex with
                                  | Some i => go_index i
                                  | None => go_undefined
                                  end)
                       (set_shuffle (Some buf) h calls st))
        end
  end.

End Autoplay.

(** ** Sequences of events *)

Definition hover_or_focus (e : input) : bool :=
  match e with
  | mouseenter | mouseleave | focusin | focusout => true
  | _ => false
  end.

(** The events of a list, each with the answers of [Components] at the
    time it arrives, handled one after the other. *)
Definition run (options : Options) (StringToNumber : string -> number)
    (events : list (Components * input)) (st : State) : State :=
  fold_left (fun st ce => handle options StringToNumber (fst ce) (snd ce) st) events st.

(** ** A concrete slider, for the examples *)

Definition example_random (k : nat) : fraction :=
  {| numer := 7 * k + 3; below_one := k + 5 |}.

Definition example_options : Options :=
  {| autoplay := autoplay_true;
     interval := Finite (5000 # 1);
     pauseOnHover := true;
     pauseOnFocus := true;
     resetProgress := false;
     autoplayShuffle := true;
     i18n_play := "Start autoplay";
     i18n_pause := "Pause autoplay" |}.

(** The same without [pauseOnHover], [pauseOnFocus] and shuffle. *)
Definition example_options_no_hover : Options :=
  {| autoplay := autoplay_true;
     interval := Finite (5000 # 1);
     pauseOnHover := false;
     pauseOnFocus := false;
     resetProgress := true;
     autoplayShuffle := false;
     i18n_play := "Start autoplay";
     i18n_pause := "Pause autoplay" |}.

(** The same again with [autoplay] off. *)
Definition example_options_off : Options :=
  {| autoplay := autoplay_false;
     interval := Finite (5000 # 1);
     pauseOnHover := true;
     pauseOnFocus := true;
     resetProgress := false;
     autoplayShuffle := false;
     i18n_play := "Start autoplay";
     i18n_pause := "Pause autoplay" |}.

Definition example_toggle : ToggleElement :=
  {| class_active := false; aria_label := None; aria_controls := None |}.

(** Three slides, the first showing: the first with the attribute ["0"],
    the second with ["1500"], the third without the attribute. *)
Definition example_components : Components :=
  {| Slides_getLength := 3;
     Slides_isEnough := true;
     Slides_getAt := fun i =>
       match i with
       | 0 => Some {| interval_attribute := Some "0" |}
       | 1 => Some {| interval_attribute := Some "1500" |}
       | 2 => Some {| interval_attribute := None |}
       | _ => None
       end;
     Controller_getIndex := 0;
     track_id := "splide01-track" |}.

(** The same slider while it had a single slide. *)
Definition example_single : Components :=
  {| Slides_getLength := 1;
     Slides_isEnough := false;
     Slides_getAt := fun i =>
       match i with
       | 0 => Some {| interval_attribute := Some "0" |}
       | _ => None
       end;
     Controller_getIndex := 0;
     track_id := "splide01-track" |}.

(** The value of a string of decimal digits, [None] for any other string. *)
Fixpoint digits_value (acc : Z) (s : string) : option Z :=
  match s with
  | EmptyString => Some acc
  | String a s' =>
      let d := (Z.of_N (Ascii.N_of_ascii a) - 48)%Z in
      if ((0 <=? d) && (d <=? 9))%Z then digits_value (10 * acc + d)%Z s' else None
  end.

(** A string conversion for the examples.  It is the conversion of the
    language on the strings the examples use, which are strings of decimal
    digits; it makes no claim on other numeric literals (signs, fractions,
    exponents, surrounding white space), which it sends to [NaN]. *)
Definition example_StringToNumber (s : string) : number :=
  match digits_value 0 s with
  | Some z => Finite (z # 1)
  | None => NaN
  end.

(** ** The states a slider can be in *)

(** The states the component reaches from its creation: by [mount()], by
    the calls of its interface ([play], [pause], [shuffle]), by the events
    it listens to, and by the ticks of its timer.  The answers of
    [Components] are free at every step. *)
Inductive reachable (options : Options) (random : nat -> fraction)
    (StringToNumber : string -> number) : State -> Prop :=
  | reach_created toggle0 :
      reachable options random StringToNumber (Autoplay options toggle0)
  | reach_mount C st :
      reachable options random StringToNumber st ->
      reachable options random StringToNumber (mount options C st)
  | reach_play C st :
      reachable options random StringToNumber st ->
      reachable options random StringToNumber (play options C st)
  | reach_pause stop st :
      reachable options random StringToNumber st ->
      reachable options random StringToNumber (pause options stop st)
  | reach_shuffle C on st :
      reachable options random StringToNumber st ->
      reachable options random StringToNumber (shuffle random C on st)
  | reach_event C e st :
      reachable options random StringToNumber st ->
      reachable options random StringToNumber (handle options StringToNumber C e st)
  | reach_tick fuel C st st' :
      reachable options random StringToNumber st ->
      onInterval random fuel C st = Some st' ->
      reachable options random StringToNumber st'.

(** The toggle button shows the [stopped] flag: what [update()] writes. *)
Definition toggle_shows_stopped (options : Options) (st : State) : Prop :=
  match toggle st with
  | Some t =>
      class_active t = negb (stopped st) /\
      aria_label t = Some (if stopped st then i18n_play options else i18n_pause options)
  | None => True
  end.

(** The events emitted, in order. *)
Definition emitted (t : list effect) : list event :=
  omap (fun e => match e with emit ev => Some ev | _ => None end) t.

(** Whether autoplay is running after an event, for a listener that
    follows the events: a play event is expected only while it is not
    running and a pause event only while it is; [None] once an event has
    come out of turn. *)
Definition after_event (running : option bool) (ev : event) : option bool :=
  match running, ev with
  | Some false, EVENT_AUTOPLAY_PLAY => Some true
  | Some true, EVENT_AUTOPLAY_PAUSE => Some false
  | _, _ => None
  end.

Definition playing_after (evs : list event) : option bool :=
  fold_left after_event evs (Some false).


(** What holds of every state the component reaches (lemma
    [reachable_consistent]): the flags, the timer, the buffer and the
    events emitted fit together, and once [listen()] has run the toggle
    button shows the [stopped] flag. *)
Definition sound (options : Options) (st : State) : Prop :=
  (stopped st = true -> isPaused st = true) /\
  (forall buf, shuffleBuffer st = Some buf -> buf < length (arrays st)) /\
  playing_after (emitted (trace st)) = Some (negb (isPaused st)) /\
  (pauseOnHover options = false -> truthy (hovered st) = false) /\
  (pauseOnFocus options = false -> truthy (focused st) = false) /\
  (autoplay options = autoplay_false -> listening st = false).

Definition synced (options : Options) (st : State) : Prop :=
  listening st = true -> toggle_shows_stopped options st.

Definition consistent (options : Options) (st : State) : Prop :=
  sound options st /\ synced options st.

(** * Properties *)

(** ** Arrays and the permutation generator *)



Section ArrayFacts.
Context {T : Type}.
Implicit Types (h : list (list T)) (a : list T) (r : ref).

Lemma deref_lookup h r a : h !! r = Some a -> deref h r = a.
Proof. unfold deref. by intros ->. Qed.

Lemma lookup_deref h r : r < length h -> h !! r = Some (deref h r).
Proof.
  intros Hr. unfold deref.
  destruct (lookup_lt_is_Some_2 h r Hr) as [a ->]. done.
Qed.

Lemma length_assign h r a : length (assign h r a) = length h.
Proof. apply length_insert. Qed.

Lemma deref_assign_eq h r a : r < length h -> deref (assign h r a) r = a.
Proof.
  intros Hr. apply deref_lookup. unfold assign.
  by apply list_lookup_insert_eq.
Qed.

Lemma deref_assign_ne h r r' a : r <> r' -> deref (assign h r a) r' = deref h r'.
Proof.
  intros Hne. unfold deref, assign. by rewrite list_lookup_insert_ne.
Qed.

Lemma deref_app_l h h' r : r < length h -> deref (h ++ h') r = deref h r.
Proof. intros Hr. unfold deref. by rewrite lookup_app_l. Qed.

(** Putting [y] where [x] was and [x] in front is a rearrangement. *)
Lemma insert_cons_perm a j (x y : T) :
  a !! j = Some x -> x :: <[j := y]> a ≡ₚ y :: a.
Proof.
  revert j. induction a as [|z a IH]; intros [|j] Hj; simplify_eq/=.
  - apply perm_swap.
  - rewrite (perm_swap z x). rewrite (IH _ Hj). apply perm_swap.
Qed.

Lemma swap_perm a index newIndex : swap a index newIndex ≡ₚ a.
Proof.
  unfold swap.
  destruct (a !! newIndex) as [x|] eqn:Hx; [|done].
  destruct (a !! index) as [y|] eqn:Hy; [|done].
  revert index newIndex Hx Hy.
  induction a as [|z a IH]; intros [|i] [|j] Hx Hy; simplify_eq/=.
  - done.
  - by apply insert_cons_perm.
  - by apply insert_cons_perm.
  - f_equiv. by apply IH.
Qed.

(** Inside the array the swap is the pair of writes of the source. *)
Lemma swap_in_range a index newIndex :
  newIndex <= index -> index < length a ->
  exists x y, a !! newIndex = Some x /\ a !! index = Some y /\
    swap a index newIndex = <[newIndex := y]> (<[index := x]> a).
Proof.
  intros Hle Hlt.
  destruct (lookup_lt_is_Some_2 a newIndex) as [x Hx]; [lia|].
  destruct (lookup_lt_is_Some_2 a index) as [y Hy]; [lia|].
  exists x, y. unfold swap. by rewrite Hx, Hy.
Qed.

Variable random : nat -> fraction.

(** The loop rewrites the array at [arr] into a rearrangement of it and
    touches nothing else. *)
Lemma shuffleLoop_spec index arr h calls a :
  h !! arr = Some a ->
  exists p, p ≡ₚ a /\
    shuffleLoop random index arr h calls = (<[arr := p]> h, calls + index).
Proof.
  revert h calls a. induction index as [|k IH]; intros h calls a Ha.
  - exists a. split; [done|]. simpl.
    by rewrite list_insert_id, Nat.add_0_r.
  - cbn [shuffleLoop].
    set (a' := swap (deref h arr) (S k) (floor_mul (random calls) (S k + 1))).
    assert (Hlt : arr < length h) by (by eapply lookup_lt_Some).
    destruct (IH (assign h arr a') (S calls) a') as (p & Hp & Heq).
    { unfold assign. by apply list_lookup_insert_eq. }
    exists p. split.
    + rewrite Hp. unfold a'. rewrite (deref_lookup _ _ _ Ha). apply swap_perm.
    + rewrite Heq. unfold assign. rewrite list_insert_insert_eq.
      f_equal. lia.
Qed.

Lemma shuffleArray_spec arr h calls :
  exists p, p ≡ₚ deref h arr /\
    shuffleArray random arr h calls
    = (length h, h ++ [p], calls + (length (deref h arr) - 1)).
Proof.
  unfold shuffleArray, alloc.
  assert (Hnew : (h ++ [deref h arr]) !! length h = Some (deref h arr)).
  { by rewrite lookup_app_r, Nat.sub_diag by lia. }
  rewrite (deref_lookup _ _ _ Hnew).
  destruct (shuffleLoop_spec (length (deref h arr) - 1) (length h)
              (h ++ [deref h arr]) calls _ Hnew) as (p & Hp & ->).
  exists p. split; [done|].
  f_equal. f_equal.
  rewrite insert_app_r_alt, Nat.sub_diag by lia. done.
Qed.

End ArrayFacts.

Lemma initShuffle_spec random (C : Components) (h : list (list nat)) calls :
  exists p, p ≡ₚ seq 0 (Slides_getLength C) /\
    initShuffle random C h calls
    = (S (length h), h ++ [seq 0 (Slides_getLength C); p],
       calls + (Slides_getLength C - 1)).
Proof.
  unfold initShuffle, range, alloc.
  set (n := Slides_getLength C).
  destruct (shuffleArray_spec random (length h) (h ++ [seq 0 n]) calls)
    as (p & Hp & ->).
  assert (Hd : deref (h ++ [seq 0 n]) (length h) = seq 0 n).
  { apply deref_lookup. by rewrite lookup_app_r, Nat.sub_diag by lia. }
  rewrite Hd in Hp |- *.
  exists p. split; [done|].
  rewrite length_app, length_seq, <- app_assoc. simpl.
  repeat f_equal. lia.
Qed.

(** [initShuffle()] returns a new array, a rearrangement of
    [0 .. n-1], and changes none of the arrays there were. *)
Lemma initShuffle_fresh random (C : Components) (h : list (list nat)) calls :
  exists r h' calls' p,
    initShuffle random C h calls = (r, h', calls') /\
    (forall r0, r0 < length h -> h' !! r0 = h !! r0) /\
    h !! r = None /\
    h' !! r = Some p /\ p ≡ₚ seq 0 (Slides_getLength C).
Proof.
  destruct (initShuffle_spec random C h calls) as (p & Hp & ->).
  eexists _, _, _, p. split; [reflexivity|].
  split; [intros r0 Hr0; by rewrite lookup_app_l|].
  split; [apply lookup_ge_None; lia|].
  split; [|done].
  rewrite lookup_app_r by lia.
  by replace (S (length h) - length h) with 1 by lia.
Qed.

(** ** One pass of the draw loop *)

Section DrawFacts.
Variable random : nat -> fraction.
Variable C : Components.
Local Abbreviation n := (Slides_getLength C).
Local Abbreviation c := (Controller_getIndex C).

(** What [initShuffle()] does to the store. *)
Lemma initShuffle_effect (h : list (list nat)) calls :
  exists p h',
    initShuffle random C h calls = (S (length h), h', calls + (n - 1)) /\
    p ≡ₚ seq 0 n /\
    length h' = length h + 2 /\
    deref h' (S (length h)) = p /\
    (forall r, r < length h -> h' !! r = h !! r).
Proof.
  destruct (initShuffle_spec random C h calls) as (p & Hp & Heq).
  exists p, (h ++ [seq 0 n; p]). repeat split; try done.
  - rewrite length_app. simpl. lia.
  - apply deref_lookup.
    rewrite lookup_app_r by lia.
    by replace (S (length h) - length h) with 1 by lia.
  - intros r Hr. by rewrite lookup_app_l.
Qed.

Lemma deref_frame (h h' : list (list nat)) r :
  h' !! r = h !! r -> deref h' r = deref h r.
Proof. unfold deref. by intros ->. Qed.

(** A rearrangement of [0 .. n-1] has [n] entries, all different and all
    below [n]. *)
Lemma perm_range_facts (p : list nat) :
  p ≡ₚ seq 0 n -> length p = n /\ NoDup p /\ Forall (fun x => x < n) p.
Proof.
  intros Hp. split; [|split].
  - rewrite Hp. apply length_seq.
  - rewrite Hp. apply NoDup_seq.
  - rewrite Hp. apply Forall_seq. intros; lia.
Qed.

(** [refill] appends a permutation exactly when fewer than [n] entries
    are left, and leaves everything as it is otherwise. *)
Lemma refill_spec buf (h : list (list nat)) calls :
  buf < length h ->
  exists h' calls',
    refill random C n buf h calls = (h', calls') /\
    length h <= length h' /\
    ((n <= length (deref h buf) /\ h' = h /\ calls' = calls) \/
     (length (deref h buf) < n /\ calls' = calls + (n - 1) /\
      exists q, q ≡ₚ seq 0 n /\ deref h' buf = deref h buf ++ q)).
Proof.
  intros Hbuf. unfold refill.
  destruct (Nat.ltb_spec (length (deref h buf)) n) as [Hshort|Hfull].
  - destruct (initShuffle_effect h calls) as (q & h' & -> & Hq & Hlen & Hnew & Hold).
    eexists _, _. split; [reflexivity|].
    unfold push. rewrite length_assign.
    split; [lia|]. right. split; [done|]. split; [done|].
    exists q. split; [done|].
    rewrite deref_assign_eq by lia. rewrite Hnew.
    by rewrite (deref_frame _ _ _ (Hold buf Hbuf)).
  - eexists _, _. split; [reflexivity|]. split; [done|]. by left.
Qed.

(** [regenerate] makes a new permutation the buffer and draws its first
    entry. *)
Lemma regenerate_spec (h : list (list nat)) calls :
  1 <= n ->
  exists y p' h',
    regenerate random C h calls = (Some y, S (length h), h', calls + (n - 1)) /\
    S (length h) < length h' /\
    y :: p' ≡ₚ seq 0 n /\
    deref h' (S (length h)) = p'.
Proof.
  intros Hn. unfold regenerate.
  destruct (initShuffle_effect h calls) as (p & h' & -> & Hp & Hlen & Hnew & _).
  unfold shift. rewrite Hnew.
  destruct (perm_range_facts p Hp) as (Hlp & _ & _).
  destruct p as [|y p']; [simpl in Hlp; lia|].
  exists y, p', (assign h' (S (length h)) p').
  split; [done|]. rewrite length_assign. split; [lia|]. split; [done|].
  apply deref_assign_eq. lia.
Qed.

(** The first entry is in range: it is the value drawn, and a permutation
    is appended exactly when fewer than [n] entries are left. *)
Lemma draw_head buf (h : list (list nat)) calls x b' :
  buf < length h -> deref h buf = x :: b' -> x < n ->
  exists h' calls',
    draw random C n buf h calls = (Some x, buf, h', calls') /\
    buf < length h' /\
    ((n <= length b' /\ deref h' buf = b' /\ calls' = calls) \/
     (length b' < n /\ calls' = calls + (n - 1) /\
      exists q, q ≡ₚ seq 0 n /\ deref h' buf = b' ++ q)).
Proof.
  intros Hbuf Hd Hx. unfold draw, shift. rewrite Hd.
  destruct (Nat.leb_spec n x) as [?|_]; [lia|].
  destruct (refill_spec buf (assign h buf b') calls) as (h' & calls' & -> & Hlen & Hcase).
  { by rewrite length_assign. }
  rewrite length_assign in Hlen. rewrite deref_assign_eq in Hcase by done.
  exists h', calls'. split; [done|]. split; [lia|].
  destruct Hcase as [(? & -> & ->)|(? & -> & q & ? & ?)].
  - left. by rewrite deref_assign_eq.
  - right. eauto.
Qed.

(** The buffer is empty, or its first entry is out of range: the buffer is
    replaced by a new permutation, whose first entry is the value drawn,
    and a second permutation is appended to what is left of it. *)
Lemma draw_regenerate buf (h : list (list nat)) calls :
  1 <= n ->
  (deref h buf = [] \/ exists x b', deref h buf = x :: b' /\ n <= x) ->
  exists y p' q buf' h',
    draw random C n buf h calls = (Some y, buf', h', calls + (n - 1) + (n - 1)) /\
    buf' < length h' /\
    y :: p' ≡ₚ seq 0 n /\ q ≡ₚ seq 0 n /\
    deref h' buf' = p' ++ q.
Proof.
  intros Hn Hcase.
  assert (Hshift : exists o h0, shift h buf = (o, h0) /\
            match o with None => true | Some i => n <=? i end = true).
  { unfold shift. destruct Hcase as [->|(x & b' & -> & Hx)].
    - by eexists _, _.
    - eexists _, _. split; [done|]. by apply Nat.leb_le. }
  destruct Hshift as (o & h0 & Hshift & Hcond).
  unfold draw. rewrite Hshift, Hcond.
  destruct (regenerate_spec h0 calls Hn) as (y & p' & h1 & -> & Hlen1 & Hp & Hd1).
  destruct (perm_range_facts _ Hp) as (Hlp & _ & _). simpl in Hlp.
  destruct (refill_spec (S (length h0)) h1 (calls + (n - 1)) Hlen1)
    as (h2 & calls2 & -> & Hlen2 & Hfill).
  rewrite Hd1 in Hfill.
  destruct Hfill as [(? & _)|(_ & -> & q & Hq & Hd2)]; [lia|].
  exists y, p', q, (S (length h0)), h2.
  split; [done|]. split; [lia|]. done.
Qed.

(** After a pass the buffer holds at least [n] entries and the value
    drawn is a slide index. *)
Lemma draw_post buf (h : list (list nat)) calls :
  1 <= n -> buf < length h ->
  exists y buf' h' calls',
    draw random C n buf h calls = (Some y, buf', h', calls') /\
    buf' < length h' /\ y < n /\ n <= length (deref h' buf').
Proof.
  intros Hn Hbuf.
  destruct (deref h buf) as [|x b'] eqn:Hd.
  - destruct (draw_regenerate buf h calls Hn) as (y & p' & q & buf' & h' & -> & ? & Hp & Hq & Hd');
      [by left|].
    exists y, buf', h', (calls + (n - 1) + (n - 1)). split; [done|]. split; [done|].
    destruct (perm_range_facts _ Hp) as (_ & _ & Hall).
    destruct (perm_range_facts _ Hq) as (Hlq & _ & _).
    split; [by inversion Hall|]. rewrite Hd', length_app. lia.
  - destruct (Nat.lt_ge_cases x n) as [Hx|Hx].
    + destruct (draw_head buf h calls x b' Hbuf Hd Hx) as (h' & calls' & -> & ? & Hcase).
      exists x, buf, h', calls'. split; [done|]. split; [done|]. split; [done|].
      destruct Hcase as [(? & -> & _)|(_ & _ & q & Hq & ->)]; [done|].
      destruct (perm_range_facts _ Hq) as (Hlq & _ & _).
      rewrite length_app. lia.
    + destruct (draw_regenerate buf h calls Hn) as (y & p' & q & buf' & h' & -> & ? & Hp & Hq & Hd');
        [right; eauto|].
      exists y, buf', h', (calls + (n - 1) + (n - 1)). split; [done|]. split; [done|].
      destruct (perm_range_facts _ Hp) as (_ & _ & Hall).
      destruct (perm_range_facts _ Hq) as (Hlq & _ & _).
      split; [by inversion Hall|]. rewrite Hd', length_app. lia.
Qed.

End DrawFacts.

(** ** The draw loop *)

Section LoopFacts.
Variable random : nat -> fraction.
Variable C : Components.
Local Abbreviation n := (Slides_getLength C).
Local Abbreviation c := (Controller_getIndex C).

(** More passes allowed do not change a result. *)
Lemma drawLoop_mono fuel fuel' buf (h : list (list nat)) calls res :
  fuel <= fuel' ->
  drawLoop random fuel C n buf h calls = Some res ->
  drawLoop random fuel' C n buf h calls = Some res.
Proof.
  revert fuel' buf h calls.
  induction fuel as [|fuel IH]; intros fuel' buf h calls Hle; [done|].
  destruct fuel' as [|fuel']; [lia|].
  cbn [drawLoop].
  destruct (draw random C n buf h calls) as [[[nextIndex buf1] h1] calls1].
  case_decide; [|done].
  apply IH. lia.
Qed.

(** Whatever the loop returns was drawn by a pass: it is a slide index
    other than the current one, and the buffer holds at least [n]
    entries. *)
Lemma drawLoop_post fuel buf (h : list (list nat)) calls res :
  1 <= n -> buf < length h ->
  drawLoop random fuel C n buf h calls = Some res ->
  exists y buf' h' calls',
    res = (Some y, buf', h', calls') /\
    buf' < length h' /\ y < n /\ y <> c /\ n <= length (deref h' buf').
Proof.
  intros Hn. revert buf h calls.
  induction fuel as [|fuel IH]; intros buf h calls Hbuf; [done|].
  cbn [drawLoop].
  destruct (draw_post random C buf h calls Hn Hbuf)
    as (y & buf1 & h1 & calls1 & Hdraw & Hbuf1 & Hy & Hlen).
  fold n in Hdraw. rewrite Hdraw.
  case_decide as Heq.
  - by apply IH.
  - intros [= <-]. exists y, buf1, h1, calls1.
    repeat split; try done. intros ->. by apply Heq.
Qed.

(** A first entry in range and other than the current index ends the
    loop at once. *)
Lemma drawLoop_exit_head fuel buf (h : list (list nat)) calls x b' :
  buf < length h -> deref h buf = x :: b' -> x < n -> x <> c ->
  1 <= fuel ->
  exists res, drawLoop random fuel C n buf h calls = Some res.
Proof.
  intros Hbuf Hd Hx Hne Hfuel.
  destruct fuel as [|fuel]; [lia|]. cbn [drawLoop].
  destruct (draw_head random C buf h calls x b' Hbuf Hd Hx) as (h' & calls' & Hdraw & _).
  fold n in Hdraw. rewrite Hdraw.
  rewrite decide_False by (intros [= ?]; by apply Hne). eauto.
Qed.

(** What follows the current index in a permutation is not the current
    index: when the buffer starts with the rest of a permutation from
    which the current index has just been drawn, one pass is enough. *)
Lemma drawLoop_exit_rest fuel buf (h : list (list nat)) calls p' rest :
  2 <= n -> buf < length h ->
  c :: p' ≡ₚ seq 0 n -> deref h buf = p' ++ rest ->
  1 <= fuel ->
  exists res, drawLoop random fuel C n buf h calls = Some res.
Proof.
  intros Hn Hbuf Hp Hd Hfuel.
  destruct (perm_range_facts C _ Hp) as (Hlp & Hnd & Hall). fold n in Hlp, Hall.
  destruct p' as [|z p'']; [simpl in Hlp; lia|].
  apply (drawLoop_exit_head fuel buf h calls z (p'' ++ rest)); try done.
  - inversion Hall as [|? ? _ Hall']. by inversion Hall'.
  - intros ->. inversion Hnd as [|? ? Hnotin _]. apply Hnotin. by left.
Qed.

(** The buffer starts with a whole permutation: two passes are enough. *)
Lemma drawLoop_exit_perm fuel buf (h : list (list nat)) calls y p' rest :
  2 <= n -> buf < length h ->
  y :: p' ≡ₚ seq 0 n -> deref h buf = y :: p' ++ rest ->
  2 <= fuel ->
  exists res, drawLoop random fuel C n buf h calls = Some res.
Proof.
  intros Hn Hbuf Hp Hd Hfuel.
  destruct (perm_range_facts C _ Hp) as (_ & _ & Hall). fold n in Hall.
  assert (Hy : y < n) by (by inversion Hall).
  destruct (decide (y = c)) as [->|Hne].
  - destruct fuel as [|fuel]; [lia|]. cbn [drawLoop].
    destruct (draw_head random C buf h calls c (p' ++ rest) Hbuf Hd Hy)
      as (h' & calls' & Hdraw & Hbuf' & Hcase).
    fold n in Hdraw. rewrite Hdraw. rewrite decide_True by done.
    destruct Hcase as [(_ & Hd' & _)|(_ & _ & q & _ & Hd')].
    + apply (drawLoop_exit_rest fuel buf h' calls' p' rest); try done. lia.
    + apply (drawLoop_exit_rest fuel buf h' calls' p' (rest ++ q)); try done; [|lia].
      by rewrite Hd', <- app_assoc.
  - apply (drawLoop_exit_head fuel buf h calls y (p' ++ rest)); try done. lia.
Qed.

(** The buffer is empty or starts out of range: two passes are enough. *)
Lemma drawLoop_exit_regenerate fuel buf (h : list (list nat)) calls :
  2 <= n ->
  (deref h buf = [] \/ exists x b', deref h buf = x :: b' /\ n <= x) ->
  2 <= fuel ->
  exists res, drawLoop random fuel C n buf h calls = Some res.
Proof.
  intros Hn Hcase Hfuel.
  destruct fuel as [|fuel]; [lia|]. cbn [drawLoop].
  destruct (draw_regenerate random C buf h calls ltac:(fold n; lia) Hcase)
    as (y & p' & q & buf' & h' & Hdraw & Hbuf' & Hp & _ & Hd').
  fold n in Hdraw. rewrite Hdraw.
  case_decide as Heq; [|eauto].
  injection Heq as ->.
  apply (drawLoop_exit_rest fuel buf' h' _ p' q); try done. lia.
Qed.

(** Entries of any kind, followed by whole permutations: every pass that
    does not end the loop removes one of the former. *)
Lemma drawLoop_terminates_from (O : list nat) :
  forall (qs : list (list nat)) fuel buf (h : list (list nat)) calls,
  2 <= n -> buf < length h ->
  deref h buf = O ++ concat qs ->
  Forall (fun q => q ≡ₚ seq 0 n) qs ->
  length O + 2 <= fuel ->
  exists res, drawLoop random fuel C n buf h calls = Some res.
Proof.
  induction O as [|x O' IH]; intros qs fuel buf h calls Hn Hbuf Hd Hqs Hfuel.
  - simpl in Hd. destruct qs as [|q1 qs'].
    + apply drawLoop_exit_regenerate; try done. by left.
    + inversion Hqs as [|? ? Hq1 Hqs']; subst.
      destruct (perm_range_facts C _ Hq1) as (Hlq & _ & _). fold n in Hlq.
      destruct q1 as [|y p']; [simpl in Hlq; lia|].
      apply (drawLoop_exit_perm fuel buf h calls y p' (concat qs')); try done.
  - destruct (Nat.lt_ge_cases x n) as [Hx|Hx].
    + destruct fuel as [|fuel]; [lia|]. cbn [drawLoop].
      destruct (draw_head random C buf h calls x (O' ++ concat qs) Hbuf Hd Hx)
        as (h' & calls' & Hdraw & Hbuf' & Hcase).
      fold n in Hdraw. rewrite Hdraw.
      case_decide as Heq; [|eauto].
      destruct Hcase as [(_ & Hd' & _)|(_ & _ & q & Hq & Hd')].
      * apply (IH qs); try done. simpl in Hfuel. lia.
      * apply (IH (qs ++ [q])); try done.
        -- rewrite Hd', concat_app, <- app_assoc. simpl. by rewrite app_nil_r.
        -- apply Forall_app. split; [done|]. by constructor.
        -- simpl in Hfuel. lia.
    + apply drawLoop_exit_regenerate; try done; [|simpl in Hfuel; lia].
      right. eauto.
Qed.

(** The loop ends within two passes more than the buffer has entries. *)
Lemma drawLoop_terminates fuel buf (h : list (list nat)) calls :
  2 <= n -> buf < length h ->
  length (deref h buf) + 2 <= fuel ->
  exists y buf' h' calls',
    drawLoop random fuel C n buf h calls = Some (Some y, buf', h', calls') /\
    buf' < length h' /\ y < n /\ y <> c /\ n <= length (deref h' buf').
Proof.
  intros Hn Hbuf Hfuel.
  destruct (drawLoop_terminates_from (deref h buf) [] fuel buf h calls)
    as (res & Hres); try done.
  { simpl. by rewrite app_nil_r. }
  destruct (drawLoop_post fuel buf h calls res ltac:(fold n; lia) Hbuf Hres)
    as (y & buf' & h' & calls' & -> & Hpost).
  exists y, buf', h', calls'. by split.
Qed.

End LoopFacts.

(** ** The permutation generator leaves its argument alone *)

(** C9. [shuffleArray] never changes the array it is given: the array at
    the reference passed in is the same afterwards, as is every other array
    of the store, and the reference returned is a new one, whose array is a
    rearrangement of the argument (same length, same entries with the same
    multiplicities).  Consequently [initShuffle()] returns a rearrangement
    of [0 .. slideCount - 1] and changes no array that existed before. *)
Theorem C9_shuffleArray_permutes_a_copy :
  (forall (T : Type) (random : nat -> fraction) (h : list (list T))
          (arr : ref) (calls : nat) (a : list T),
     h !! arr = Some a ->
     exists r h' calls' p,
       shuffleArray random arr h calls = (r, h', calls') /\
       h' !! arr = Some a /\
       (forall r0, r0 < length h -> h' !! r0 = h !! r0) /\
       r <> arr /\ h !! r = None /\
       h' !! r = Some p /\ p ≡ₚ a /\ length p = length a) /\
  (forall (random : nat -> fraction) (C : Components)
          (h : list (list nat)) (calls : nat),
     exists r h' calls' p,
       initShuffle random C h calls = (r, h', calls') /\
       (forall r0, r0 < length h -> h' !! r0 = h !! r0) /\
       h !! r = None /\
       h' !! r = Some p /\ p ≡ₚ seq 0 (Slides_getLength C)).
Proof.
  split.
  - intros T random h arr calls a Ha.
    destruct (shuffleArray_spec random arr h calls) as (p & Hp & ->).
    rewrite (deref_lookup _ _ _ Ha) in Hp |- *.
    assert (Hlt : arr < length h) by (by eapply lookup_lt_Some).
    exists (length h), (h ++ [p]), (calls + (length a - 1)), p.
    split; [done|]. split; [by rewrite lookup_app_l|].
    split; [intros r0 Hr0; by rewrite lookup_app_l|].
    split; [lia|]. split; [by apply lookup_ge_None|].
    split; [by rewrite lookup_app_r, Nat.sub_diag by lia|].
    split; [done|]. by rewrite Hp.
  - intros random C h calls. apply initShuffle_fresh.
Qed.

Lemma C9_witness :
  [[10; 20; 30; 40]] !! 0 = Some [10; 20; 30; 40] /\
  exists r h' calls' p,
    shuffleArray example_random 0 [[10; 20; 30; 40]] 0 = (r, h', calls') /\
    h' !! 0 = Some [10; 20; 30; 40] /\
    (forall r0, r0 < 1 -> h' !! r0 = [[10; 20; 30; 40]] !! r0) /\
    r <> 0 /\ [[10; 20; 30; 40]] !! r = None /\
    h' !! r = Some p /\ p ≡ₚ [10; 20; 30; 40] /\ length p = 4.
Proof.
  split; [reflexivity|].
  apply (proj1 C9_shuffleArray_permutes_a_copy nat example_random
           [[10; 20; 30; 40]] 0 0 [10; 20; 30; 40]).
  reflexivity.
Defined.

(** ** Play and pause *)

Section PlayPause.
Variable options : Options.
Variable StringToNumber : string -> number.

Lemma autoToggle_stopped (C : Components) (st : State) :
  stopped st = true -> autoToggle options C st = st.
Proof. unfold autoToggle. by intros ->. Qed.

(** A hover or focus event on a stopped slider changes at most the two
    flags [hovered] and [focused]. *)
Lemma handle_stopped (C : Components) (e : input) (st : State) :
  stopped st = true -> hover_or_focus e = true ->
  exists h f, handle options StringToNumber C e st = set_flags true h f st.
Proof.
  intros Hs He.
  assert (Hid : st = set_flags true (hovered st) (focused st) st).
  { destruct st; simpl in *; by subst. }
  unfold handle.
  destruct (listening st); [|by eexists _, _].
  destruct e; try discriminate He.
  - destruct (pauseOnHover options); [|by eexists _, _].
    unfold on_mouse. rewrite autoToggle_stopped by done. rewrite Hs. by eexists _, _.
  - destruct (pauseOnHover options); [|by eexists _, _].
    unfold on_mouse. rewrite autoToggle_stopped by done. rewrite Hs. by eexists _, _.
  - destruct (pauseOnFocus options); [|by eexists _, _].
    unfold on_focus. rewrite autoToggle_stopped by done. rewrite Hs. by eexists _, _.
  - destruct (pauseOnFocus options); [|by eexists _, _].
    unfold on_focus. rewrite autoToggle_stopped by done. rewrite Hs. by eexists _, _.
Qed.

Lemma run_stopped (events : list (Components * input)) (st : State) :
  stopped st = true ->
  Forall (fun ce => hover_or_focus (snd ce) = true) events ->
  exists h f, run options StringToNumber events st = set_flags true h f st.
Proof.
  revert st. induction events as [|[C e] events IH]; intros st Hs Hall.
  - exists (hovered st), (focused st). destruct st; simpl in *; by subst.
  - inversion Hall as [|? ? He Hall']; subst. simpl in He.
    destruct (handle_stopped C e st Hs He) as (h1 & f1 & Hstep).
    destruct (IH (set_flags true h1 f1 st) eq_refl Hall') as (h2 & f2 & Hrun).
    exists h2, f2. unfold run in *. simpl. by rewrite Hstep, Hrun.
Qed.

End PlayPause.

(** C1. Manual stop has precedence over hover and focus.  Starting from a
    state in which [stopped] is true, after any sequence of hover and focus
    events the state differs from the initial one in the flags [hovered]
    and [focused] at most: [stopped] is still true, the timer is as it was
    (it has not been started), and no call has been added to the trace (no
    event emitted); [autoToggle()] leaves such a state as it is.  An
    explicit [play()] does resume: with a paused timer and enough slides it
    starts the timer and clears [stopped]. *)
Theorem C1_stopped_wins (options : Options) (StringToNumber : string -> number)
    (events : list (Components * input)) (st : State) :
  stopped st = true ->
  Forall (fun ce => hover_or_focus (snd ce) = true) events ->
  let st' := run options StringToNumber events st in
  st' = set_flags true (hovered st') (focused st') st /\
  stopped st' = true /\ timer st' = timer st /\ trace st' = trace st /\
  (forall C, autoToggle options C st' = st') /\
  (forall C, isPaused st' = true -> Slides_isEnough C = true ->
     isPaused (play options C st') = false /\
     stopped (play options C st') = false).
Proof.
  intros Hs Hall st'.
  destruct (run_stopped options StringToNumber events st Hs Hall) as (h & f & Hrun).
  subst st'. rewrite Hrun. simpl.
  split; [done|]. split; [done|]. split; [done|]. split; [done|]. split.
  - intros C. by apply autoToggle_stopped.
  - intros C Hp He. unfold play, isPaused in *. simpl in *.
    rewrite Hp, He. simpl. unfold update. simpl.
    by destruct (toggle st).
Qed.

Lemma C1_witness :
  let st := pause example_options true
              (mount example_options example_components
                 (Autoplay example_options (Some example_toggle))) in
  let events := [(example_components, mouseenter); (example_components, focusin);
                 (example_components, mouseleave); (example_components, focusout)] in
  stopped st = true /\
  Forall (fun ce => hover_or_focus (snd ce) = true) events /\
  let st' := run example_options example_StringToNumber events st in
  st' = set_flags true (hovered st') (focused st') st /\
  stopped st' = true /\ timer st' = timer st /\ trace st' = trace st /\
  (forall C, autoToggle example_options C st' = st') /\
  (forall C, isPaused st' = true -> Slides_isEnough C = true ->
     isPaused (play example_options C st') = false /\
     stopped (play example_options C st') = false).
Proof.
  intros st events.
  assert (Hs : stopped st = true) by reflexivity.
  assert (Hall : Forall (fun ce => hover_or_focus (snd ce) = true) events)
    by (repeat constructor).
  split; [exact Hs|]. split; [exact Hall|].
  exact (C1_stopped_wins example_options example_StringToNumber events st Hs Hall).
Defined.

(** C3. [play()] does nothing at all (every flag, the timer, the toggle
    button and the trace are the same, so no event is emitted) when the
    timer is not paused or there are not enough slides.  Otherwise it
    starts the timer, resuming the progress unless [resetProgress] is set,
    makes [stopped], [hovered] and [focused] false, brings the toggle
    button in line with [stopped = false], and emits the play event, once;
    nothing else changes. *)
Theorem C3_play (options : Options) (C : Components) (st : State) :
  (isPaused st = false \/ Slides_isEnough C = false ->
     play options C st = st) /\
  (isPaused st = true /\ Slides_isEnough C = true ->
     play options C st =
       {| stopped := false;
          hovered := Some false;
          focused := Some false;
          shuffleBuffer := shuffleBuffer st;
          arrays := arrays st;
          random_calls := random_calls st;
          timer := {| paused := false; time := time (timer st) |};
          toggle :=
            match toggle st with
            | Some t => Some {| class_active := true;
                                aria_label := Some (i18n_pause options);
                                aria_controls := aria_controls t |}
            | None => None
            end;
          listening := listening st;
          trace := trace st ++ [interval_start (negb (resetProgress options));
                                emit EVENT_AUTOPLAY_PLAY] |}).
Proof.
  unfold play. split.
  - intros [-> | ->]; [done|]. by rewrite andb_false_r.
  - intros [-> ->]. simpl.
    unfold update, call, timer_start, call. simpl.
    destruct (toggle st); simpl; by rewrite <- app_assoc.
Qed.

Lemma C3_witness :
  let st := Autoplay example_options (Some example_toggle) in
  (isPaused st = true /\ Slides_isEnough example_components = true) /\
  trace (play example_options example_components st)
  = [interval_start true; emit EVENT_AUTOPLAY_PLAY] /\
  play example_options example_components (play example_options example_components st)
  = play example_options example_components st.
Proof.
  intros st.
  assert (Hpre : isPaused st = true /\ Slides_isEnough example_components = true)
    by (split; reflexivity).
  split; [exact Hpre|]. split.
  - rewrite (proj2 (C3_play example_options example_components st) Hpre). reflexivity.
  - apply (proj1 (C3_play example_options example_components
                    (play example_options example_components st))).
    left. reflexivity.
Defined.

(** C4. For either value of [stop], [pause( stop )] makes [stopped] equal
    to [stop] and brings the toggle button in line with it, whether or not
    the timer was paused; it pauses the timer and emits the pause event
    exactly when the timer was running, and adds nothing to the trace when
    the timer was paused already.  Nothing else changes.  In particular a
    second pointer-enter in a row emits nothing. *)
Theorem C4_pause (options : Options) (stop : bool) (st : State) :
  pause options stop st =
    {| stopped := stop;
       hovered := hovered st;
       focused := focused st;
       shuffleBuffer := shuffleBuffer st;
       arrays := arrays st;
       random_calls := random_calls st;
       timer := {| paused := true; time := time (timer st) |};
       toggle :=
         match toggle st with
         | Some t => Some {| class_active := negb stop;
                             aria_label := Some (if stop then i18n_play options
                                                 else i18n_pause options);
                             aria_controls := aria_controls t |}
         | None => None
         end;
       listening := listening st;
       trace := trace st ++ (if isPaused st then []
                             else [interval_pause; emit EVENT_AUTOPLAY_PAUSE]) |} /\
  (forall C,
     trace (on_mouse options C true (on_mouse options C true st))
     = trace (on_mouse options C true st)).
Proof.
  assert (Hpause : forall stop st,
    pause options stop st =
    {| stopped := stop; hovered := hovered st; focused := focused st;
       shuffleBuffer := shuffleBuffer st; arrays := arrays st;
       random_calls := random_calls st;
       timer := {| paused := true; time := time (timer st) |};
       toggle :=
         match toggle st with
         | Some t => Some {| class_active := negb stop;
                             aria_label := Some (if stop then i18n_play options
                                                 else i18n_pause options);
                             aria_controls := aria_controls t |}
         | None => None
         end;
       listening := listening st;
       trace := trace st ++ (if isPaused st then []
                             else [interval_pause; emit EVENT_AUTOPLAY_PAUSE]) |}).
  { clear. intros stop st. unfold pause, update, isPaused.
    destruct st as [s hv fc b h k [p t] [tg|] l tr]; simpl;
      destruct p; simpl; unfold timer_pause, call, set_timer; simpl;
      rewrite <- ?app_assoc, ?app_nil_r; reflexivity. }
  split; [apply Hpause|].
  intros C. unfold on_mouse, autoToggle.
  destruct st as [s hv fc b h k [p t] [tg|] l tr]; destruct s; simpl;
    try reflexivity; rewrite !Hpause; simpl; by rewrite app_nil_r.
Qed.

(** ** The interval of the slide moved to *)

Lemma ToBoolean_false (x : number) :
  ToBoolean x = false <-> x = NaN \/ exists q, x = Finite q /\ (q == 0)%Q.
Proof.
  destruct x as [|neg|q]; simpl.
  - split; [by left|done].
  - split; [done|]. intros [?|(q & ? & _)]; done.
  - rewrite negb_false_iff, Z.eqb_eq. unfold Qeq. simpl. split.
    + intros Hq. right. exists q. split; [done|]. lia.
    + intros [?|(q' & [= <-] & Hq)]; [done|]. lia.
Qed.

(** C8, amended.  [onMove( i )] calls [interval.set] once.  The value is
    the number the attribute of the slide converts to when the slide exists,
    carries the attribute, and that number is neither [NaN] nor zero; in
    every other case (no slide at [i], no attribute on it, or an attribute
    that converts to [NaN] or to zero) it is [options.interval]. *)
Theorem C8_onMove_override_unless_falsy (options : Options)
    (StringToNumber : string -> number) (C : Components) (i : nat) (st : State) :
  let st' := onMove options StringToNumber C i st in
  (forall Slide s,
     Slides_getAt C i = Some Slide -> interval_attribute Slide = Some s ->
     StringToNumber s <> NaN ->
     ~ (exists q, StringToNumber s = Finite q /\ (q == 0)%Q) ->
     time (timer st') = StringToNumber s /\
     trace st' = trace st ++ [interval_set (StringToNumber s)]) /\
  (~ (exists Slide s,
        Slides_getAt C i = Some Slide /\ interval_attribute Slide = Some s /\
        StringToNumber s <> NaN /\
        ~ (exists q, StringToNumber s = Finite q /\ (q == 0)%Q)) ->
     time (timer st') = interval options /\
     trace st' = trace st ++ [interval_set (interval options)]).
Proof.
  intros st'. subst st'. unfold onMove. split.
  - intros Slide s -> Hs Hnan Hzero. unfold to_number. rewrite Hs.
    unfold number_or.
    destruct (ToBoolean (StringToNumber s)) eqn:Hb; [done|].
    apply ToBoolean_false in Hb. tauto.
  - intros Hnot.
    destruct (Slides_getAt C i) as [Slide|] eqn:HSlide; [|done].
    destruct (interval_attribute Slide) as [s|] eqn:Hs; [|done].
    unfold to_number, number_or.
    destruct (ToBoolean (StringToNumber s)) eqn:Hb; [|done].
    exfalso. apply Hnot. exists Slide, s.
    split; [done|]. split; [done|]. split.
    + intros Hnan. rewrite Hnan in Hb. discriminate Hb.
    + intros Hzero.
      assert (Hf : ToBoolean (StringToNumber s) = false)
        by (apply ToBoolean_false; by right).
      congruence.
Qed.

Lemma C8_witness :
  let st := Autoplay example_options None in
  let st' := onMove example_options example_StringToNumber example_components 1 st in
  example_StringToNumber "1500" <> NaN /\
  ~ (exists q, example_StringToNumber "1500" = Finite q /\ (q == 0)%Q) /\
  time (timer st') = Finite (1500 # 1) /\
  trace st' = [interval_set (Finite (1500 # 1))].
Proof.
  intros st st'.
  assert (Hnan : example_StringToNumber "1500" <> NaN) by discriminate.
  assert (Hzero : ~ (exists q, example_StringToNumber "1500" = Finite q /\ (q == 0)%Q)).
  { intros (q & [= <-] & Hq). discriminate Hq. }
  split; [exact Hnan|]. split; [exact Hzero|].
  exact (proj1 (C8_onMove_override_unless_falsy example_options
                  example_StringToNumber example_components 1 st)
           {| interval_attribute := Some "1500" |} "1500" eq_refl eq_refl Hnan Hzero).
Defined.

(** C8 as stated fails: the first slide of the example carries the
    attribute ["0"], which is present and numeric (it converts to the
    number 0, not to [NaN]), and [onMove( 0 )] sets the timer to
    [options.interval], 5000, not to 0. *)
Lemma C8_counterexample :
  let st := Autoplay example_options None in
  let st' := onMove example_options example_StringToNumber example_components 0 st in
  Slides_getAt example_components 0 = Some {| interval_attribute := Some "0" |} /\
  example_StringToNumber "0" = Finite 0 /\
  example_StringToNumber "0" <> NaN /\
  time (timer st') = Finite (5000 # 1) /\
  time (timer st') <> example_StringToNumber "0".
Proof.
  repeat split; try reflexivity; discriminate.
Qed.

(** C10. When the slide carries the attribute and the number it converts
    to is zero or [NaN], [onMove] sets the timer to [options.interval], not
    to that number: [interval.set] is called once, with
    [options.interval]. *)
Theorem C10_onMove_zero_override_ignored (options : Options)
    (StringToNumber : string -> number) (C : Components) (i : nat) (st : State)
    (Slide : SlideComponent) (s : string) :
  Slides_getAt C i = Some Slide -> interval_attribute Slide = Some s ->
  (StringToNumber s = NaN \/ exists q, StringToNumber s = Finite q /\ (q == 0)%Q) ->
  let st' := onMove options StringToNumber C i st in
  timer st' = {| paused := paused (timer st); time := interval options |} /\
  trace st' = trace st ++ [interval_set (interval options)].
Proof.
  intros HSlide Hs Hfalsy st'. subst st'. unfold onMove.
  rewrite HSlide. unfold to_number. rewrite Hs. unfold number_or.
  apply ToBoolean_false in Hfalsy. by rewrite Hfalsy.
Qed.

Lemma C10_witness :
  let st := Autoplay example_options None in
  let st' := onMove example_options example_StringToNumber example_components 0 st in
  (example_StringToNumber "0" = NaN \/
   exists q, example_StringToNumber "0" = Finite q /\ (q == 0)%Q) /\
  timer st' = {| paused := true; time := Finite (5000 # 1) |} /\
  trace st' = [interval_set (Finite (5000 # 1))].
Proof.
  intros st st'.
  assert (Hfalsy : example_StringToNumber "0" = NaN \/
                   exists q, example_StringToNumber "0" = Finite q /\ (q == 0)%Q).
  { right. exists 0%Q. split; reflexivity. }
  split; [exact Hfalsy|].
  exact (C10_onMove_zero_override_ignored example_options example_StringToNumber
           example_components 0 st {| interval_attribute := Some "0" |} "0"
           eq_refl eq_refl Hfalsy).
Defined.

(** ** Turning shuffle on and off *)

(** C7. [shuffle( on )] is an idempotent toggle.  Turning it on while the
    buffer is [null] makes the buffer a new array holding a rearrangement
    of [0 .. slideCount - 1]; turning it off while there is a buffer makes
    the buffer [null] and changes nothing else; turning it on while there is
    a buffer, or off while there is none, leaves the state as it is; and
    calling it twice with the same argument gives the state that calling it
    once gives, whatever the slides are at either call. *)
Theorem C7_shuffle_idempotent (random : nat -> fraction) (st : State) :
  (forall C, shuffleBuffer st = None ->
     exists r p,
       shuffleBuffer (shuffle random C true st) = Some r /\
       arrays st !! r = None /\
       arrays (shuffle random C true st) !! r = Some p /\
       p ≡ₚ seq 0 (Slides_getLength C)) /\
  (forall C, shuffleBuffer st <> None ->
     shuffle random C false st = set_shuffle None (arrays st) (random_calls st) st) /\
  (forall C, shuffleBuffer st <> None -> shuffle random C true st = st) /\
  (forall C, shuffleBuffer st = None -> shuffle random C false st = st) /\
  (forall C1 C2 on,
     shuffle random C2 on (shuffle random C1 on st) = shuffle random C1 on st).
Proof.
  assert (Hon : forall C st, shuffleBuffer st <> None -> shuffle random C true st = st).
  { intros C [s hv fc [b|] h k tm tg l tr] Hb; [done|]. by destruct Hb. }
  assert (Hoff : forall C st, shuffleBuffer st = None -> shuffle random C false st = st).
  { intros C [s hv fc b h k tm tg l tr] Hb. simpl in Hb. by subst. }
  assert (Hcreate : forall C st, shuffleBuffer st = None ->
            exists r h' calls' p,
              initShuffle random C (arrays st) (random_calls st) = (r, h', calls') /\
              shuffle random C true st = set_shuffle (Some r) h' calls' st /\
              arrays st !! r = None /\ h' !! r = Some p /\
              p ≡ₚ seq 0 (Slides_getLength C)).
  { intros C st0 Hb.
    destruct (initShuffle_fresh random C (arrays st0) (random_calls st0))
      as (r & h' & calls' & p & Heq & _ & Hnew & Hp & Hperm).
    exists r, h', calls', p. split; [done|].
    unfold shuffle. rewrite Hb, Heq. simpl. done. }
  split; [|split; [|split; [|split]]].
  - intros C Hb.
    destruct (Hcreate C st Hb) as (r & h' & calls' & p & _ & -> & ? & ? & ?).
    by exists r, p.
  - intros C Hb. unfold shuffle. simpl.
    destruct (shuffleBuffer st); [done|]. by destruct Hb.
  - intros C. apply Hon.
  - intros C. apply Hoff.
  - intros C1 C2 [|].
    + destruct (shuffleBuffer st) eqn:Hb.
      * rewrite (Hon C1 st) by (by rewrite Hb). apply Hon. by rewrite Hb.
      * destruct (Hcreate C1 st Hb) as (r & h' & calls' & p & _ & -> & _).
        by apply Hon.
    + destruct (shuffleBuffer st) eqn:Hb.
      * apply Hoff. unfold shuffle. simpl. by rewrite Hb.
      * rewrite (Hoff C1 st Hb). by apply Hoff.
Qed.

Lemma C7_witness :
  let st := shuffle example_random example_components false
              (Autoplay example_options None) in
  shuffleBuffer st = None /\
  exists r p,
    shuffleBuffer (shuffle example_random example_components true st) = Some r /\
    arrays st !! r = None /\
    arrays (shuffle example_random example_components true st) !! r = Some p /\
    p ≡ₚ seq 0 3.
Proof.
  intros st.
  assert (Hoff : shuffleBuffer st = None) by reflexivity.
  split; [exact Hoff|].
  exact (proj1 (C7_shuffle_idempotent example_random st) example_components Hoff).
Defined.

(** ** The tick *)

(** C6. With at least three slides, whatever the current index and
    whatever the buffer holds (nothing, entries out of range, the current
    index many times over), the draw loop ends: with [length b + 2] passes
    allowed, or any number above, it returns a drawn value, and that value
    is not the current index. *)
Theorem C6_draw_loop_terminates (random : nat -> fraction) (C : Components)
    (buf : ref) (h : list (list nat)) (calls : nat) (b : list nat) :
  3 <= Slides_getLength C ->
  h !! buf = Some b ->
  exists y buf' h' calls',
    (forall fuel, length b + 2 <= fuel ->
       drawLoop random fuel C (Slides_getLength C) buf h calls
       = Some (Some y, buf', h', calls')) /\
    y <> Controller_getIndex C.
Proof.
  intros Hn Hb.
  assert (Hbuf : buf < length h) by (by eapply lookup_lt_Some).
  destruct (drawLoop_terminates random C (length b + 2) buf h calls)
    as (y & buf' & h' & calls' & Hloop & _ & _ & Hne & _); try lia; try done.
  { by rewrite (deref_lookup _ _ _ Hb). }
  exists y, buf', h', calls'. split; [|done].
  intros fuel Hfuel. by apply (drawLoop_mono random C (length b + 2)).
Qed.

Lemma C6_witness :
  3 <= Slides_getLength example_components /\
  [[0; 0; 7; 0]] !! 0 = Some [0; 0; 7; 0] /\
  exists y buf' h' calls',
    (forall fuel, 4 + 2 <= fuel ->
       drawLoop example_random fuel example_components 3 0 [[0; 0; 7; 0]] 0
       = Some (Some y, buf', h', calls')) /\
    y <> 0.
Proof.
  assert (Hn : 3 <= Slides_getLength example_components) by (simpl; lia).
  split; [exact Hn|]. split; [reflexivity|].
  exact (C6_draw_loop_terminates example_random example_components 0
           [[0; 0; 7; 0]] 0 [0; 0; 7; 0] Hn eq_refl).
Defined.

(** C2. On a tick in shuffle mode with more than two slides, [Splide.go]
    is called once, with an index that is below the slide count and is not
    the index of the slide showing.  On a tick with at most two slides, or
    with shuffle off, [Splide.go( '>' )] is called and nothing else
    happens: the buffer, the store and the count of random draws are the
    same. *)
Theorem C2_tick_target (random : nat -> fraction) (C : Components) (st : State) :
  (forall buf b,
     2 < Slides_getLength C ->
     shuffleBuffer st = Some buf -> arrays st !! buf = Some b ->
     exists y st',
       (forall fuel, length b + 2 <= fuel -> onInterval random fuel C st = Some st') /\
       trace st' = trace st ++ [Splide_go (go_index y)] /\
       y < Slides_getLength C /\ y <> Controller_getIndex C) /\
  (shuffleBuffer st = None \/ Slides_getLength C <= 2 ->
     forall fuel,
       onInterval random fuel C st = Some (call (Splide_go go_next) st)).
Proof.
  split.
  - intros buf b Hn Hbuf Hb.
    assert (Hlt : buf < length (arrays st)) by (by eapply lookup_lt_Some).
    destruct (drawLoop_terminates random C (length b + 2) buf (arrays st) (random_calls st))
      as (y & buf' & h' & calls' & Hloop & _ & Hy & Hne & _); try lia; try done.
    { by rewrite (deref_lookup _ _ _ Hb). }
    exists y, (call (Splide_go (go_index y)) (set_shuffle (Some buf') h' calls' st)).
    split; [|done].
    intros fuel Hfuel. unfold onInterval. rewrite Hbuf.
    destruct (Nat.leb_spec (Slides_getLength C) 2) as [?|_]; [lia|].
    by rewrite (drawLoop_mono random C _ fuel _ _ _ _ Hfuel Hloop).
  - intros Hcase fuel. unfold onInterval.
    destruct (shuffleBuffer st) as [buf|]; [|done].
    destruct Hcase as [?|Hn]; [done|].
    by destruct (Nat.leb_spec (Slides_getLength C) 2) as [_|?]; [|lia].
Qed.

Lemma C2_witness :
  let st := mount example_options example_components
              (Autoplay example_options None) in
  2 < Slides_getLength example_components /\
  shuffleBuffer st = Some 0 /\ arrays st !! 0 = Some [] /\
  exists y st',
    (forall fuel, 0 + 2 <= fuel ->
       onInterval example_random fuel example_components st = Some st') /\
    trace st' = trace st ++ [Splide_go (go_index y)] /\
    y < 3 /\ y <> 0.
Proof.
  intros st.
  assert (Hn : 2 < Slides_getLength example_components) by (simpl; lia).
  split; [exact Hn|]. split; [reflexivity|]. split; [reflexivity|].
  exact (proj1 (C2_tick_target example_random example_components st)
           0 [] Hn eq_refl eq_refl).
Defined.

(** C5, amended.  In shuffle mode with at least three slides, every pass
    of the draw appends a new permutation to the buffer exactly when fewer
    than [slideCount] entries are left after the draw, and generates
    nothing otherwise, so that after every tick the buffer holds at least
    [slideCount] entries.  A buffer found empty at a draw is replaced, at
    that draw, by a new permutation, from which the value is drawn and to
    which a second permutation is appended. *)
Theorem C5_buffer_replenished (random : nat -> fraction) (C : Components) :
  3 <= Slides_getLength C ->
  (forall st buf b,
     shuffleBuffer st = Some buf -> arrays st !! buf = Some b ->
     exists st' buf' b',
       onInterval random (length b + 2) C st = Some st' /\
       shuffleBuffer st' = Some buf' /\ arrays st' !! buf' = Some b' /\
       Slides_getLength C <= length b') /\
  (forall buf (h : list (list nat)) calls x rest,
     h !! buf = Some (x :: rest) -> x < Slides_getLength C ->
     exists h' calls',
       draw random C (Slides_getLength C) buf h calls = (Some x, buf, h', calls') /\
       ((Slides_getLength C <= length rest /\
         h' !! buf = Some rest /\ calls' = calls) \/
        (length rest < Slides_getLength C /\
         exists q, q ≡ₚ seq 0 (Slides_getLength C) /\ h' !! buf = Some (rest ++ q)))) /\
  (forall buf (h : list (list nat)) calls,
     h !! buf = Some [] ->
     exists y p' q buf' h' calls',
       draw random C (Slides_getLength C) buf h calls = (Some y, buf', h', calls') /\
       y :: p' ≡ₚ seq 0 (Slides_getLength C) /\
       q ≡ₚ seq 0 (Slides_getLength C) /\
       h' !! buf' = Some (p' ++ q)).
Proof.
  intros Hn. split; [|split].
  - intros st buf b Hbuf Hb.
    assert (Hlt : buf < length (arrays st)) by (by eapply lookup_lt_Some).
    destruct (drawLoop_terminates random C (length b + 2) buf (arrays st) (random_calls st))
      as (y & buf' & h' & calls' & Hloop & Hlt' & _ & _ & Hlen); try lia; try done.
    { by rewrite (deref_lookup _ _ _ Hb). }
    exists (call (Splide_go (go_index y)) (set_shuffle (Some buf') h' calls' st)),
           buf', (deref h' buf').
    split.
    + unfold onInterval. rewrite Hbuf.
      destruct (Nat.leb_spec (Slides_getLength C) 2) as [?|_]; [lia|].
      by rewrite Hloop.
    + simpl. split; [done|]. split; [by apply lookup_deref|done].
  - intros buf h calls x rest Hb Hx.
    assert (Hlt : buf < length h) by (by eapply lookup_lt_Some).
    destruct (draw_head random C buf h calls x rest Hlt (deref_lookup _ _ _ Hb) Hx)
      as (h' & calls' & Hdraw & Hlt' & Hcase).
    exists h', calls'. split; [done|].
    rewrite (lookup_deref h' buf Hlt').
    destruct Hcase as [(? & -> & ->)|(? & _ & q & ? & ->)]; [by left|].
    right. split; [done|]. by exists q.
  - intros buf h calls Hb.
    destruct (draw_regenerate random C buf h calls ltac:(lia))
      as (y & p' & q & buf' & h' & Hdraw & Hlt' & Hp & Hq & Hd').
    { left. by apply deref_lookup. }
    exists y, p', q, buf', h', (calls + (Slides_getLength C - 1) + (Slides_getLength C - 1)).
    split; [done|]. split; [done|]. split; [done|].
    by rewrite (lookup_deref h' buf' Hlt'), Hd'.
Qed.

Lemma C5_witness :
  3 <= Slides_getLength example_components /\
  let st := mount example_options example_components
              (Autoplay example_options None) in
  exists st' buf' b',
    onInterval example_random (0 + 2) example_components st = Some st' /\
    shuffleBuffer st' = Some buf' /\ arrays st' !! buf' = Some b' /\
    3 <= length b'.
Proof.
  assert (Hn : 3 <= Slides_getLength example_components) by (simpl; lia).
  split; [exact Hn|]. intros st.
  exact (proj1 (C5_buffer_replenished example_random example_components Hn)
           st 0 [] eq_refl eq_refl).
Defined.

(** C5 as stated fails, in two ways.  The buffer of a slider created with
    [autoplayShuffle] is the empty array, and it is still empty when the
    first tick comes: the permutations are generated at that tick, after
    the buffer was found empty ([Math.random()] had not been called before
    the tick and has been called four times after it).  And a buffer made
    by [shuffle( true )] while the slider had one slide holds one entry:
    with three slides the next draw takes that entry, which leaves the
    buffer empty, and the permutation is appended to the empty buffer. *)
Lemma C5_counterexample :
  (let st := mount example_options example_components
               (Autoplay example_options None) in
   shuffleBuffer st = Some 0 /\ arrays st !! 0 = Some [] /\ random_calls st = 0 /\
   isPaused st = false /\
   exists st',
     onInterval example_random 2 example_components st = Some st' /\
     random_calls st' = 4 /\
     shuffleBuffer st' = Some 2 /\
     arrays st' !! 2 = Some [1; 0; 1; 2] /\
     trace st' = trace st ++ [Splide_go (go_index 2)]) /\
  (let st := shuffle example_random example_single true
               (shuffle example_random example_components false
                  (Autoplay example_options None)) in
   shuffleBuffer st = Some 2 /\ arrays st !! 2 = Some [0] /\
   exists h',
     draw example_random example_components 3 2 (arrays st) (random_calls st)
     = (Some 0, 2, h', 2) /\
     h' !! 2 = Some ([] ++ [0; 2; 1])).
Proof.
  split.
  - intros st. repeat split.
    eexists. split; [vm_compute; reflexivity|]. repeat split.
  - intros st. repeat split.
    eexists. split; [vm_compute; reflexivity|]. reflexivity.
Qed.

(** * Further properties of the component *)

(** ** What [play] and [pause] return *)

Section Results.
Variable options : Options.

Lemma play_result (C : Components) (st : State) :
  play options C st =
    if isPaused st && Slides_isEnough C then
      {| stopped := false;
         hovered := Some false;
         focused := Some false;
         shuffleBuffer := shuffleBuffer st;
         arrays := arrays st;
         random_calls := random_calls st;
         timer := {| paused := false; time := time (timer st) |};
         toggle :=
           match toggle st with
           | Some t => Some {| class_active := true;
                               aria_label := Some (i18n_pause options);
                               aria_controls := aria_controls t |}
           | None => None
           end;
         listening := listening st;
         trace := trace st ++ [interval_start (negb (resetProgress options));
                               emit EVENT_AUTOPLAY_PLAY] |}
    else st.
Proof.
  unfold play. destruct (isPaused st && Slides_isEnough C); [|done].
  unfold update, call, timer_start, call. simpl.
  destruct (toggle st); simpl; by rewrite <- app_assoc.
Qed.

Lemma pause_result (stop : bool) (st : State) :
  pause options stop st =
    {| stopped := stop;
       hovered := hovered st;
       focused := focused st;
       shuffleBuffer := shuffleBuffer st;
       arrays := arrays st;
       random_calls := random_calls st;
       timer := {| paused := true; time := time (timer st) |};
       toggle :=
         match toggle st with
         | Some t => Some {| class_active := negb stop;
                             aria_label := Some (if stop then i18n_play options
                                                 else i18n_pause options);
                             aria_controls := aria_controls t |}
         | None => None
         end;
       listening := listening st;
       trace := trace st ++ (if isPaused st then []
                             else [interval_pause; emit EVENT_AUTOPLAY_PAUSE]) |}.
Proof.
  unfold pause, update, isPaused.
  destruct st as [s hv fc b h k [p t] [tg|] l tr]; simpl;
    destruct p; simpl; unfold timer_pause, call, set_timer; simpl;
    rewrite <- ?app_assoc, ?app_nil_r; reflexivity.
Qed.

Lemma playing_after_app (t es : list effect) :
  playing_after (emitted (t ++ es))
  = fold_left after_event (emitted es) (playing_after (emitted t)).
Proof.
  unfold playing_after, emitted. by rewrite omap_app, fold_left_app.
Qed.

End Results.

(** ** Every step keeps the state consistent *)

Section Invariants.
Variable options : Options.
Variable random : nat -> fraction.
Variable StringToNumber : string -> number.

Lemma consistent_created toggle0 : consistent options (Autoplay options toggle0).
Proof.
  unfold consistent, sound, synced, Autoplay. simpl. repeat split; try done.
  intros buf. destruct (autoplayShuffle options); [|done].
  intros [= <-]. simpl. lia.
Qed.

Lemma update_shows_stopped st : toggle_shows_stopped options (update options st).
Proof.
  unfold update, toggle_shows_stopped.
  destruct (toggle st) as [t|] eqn:Ht; simpl; [done|]. by rewrite Ht.
Qed.

(** [update()] and [listen()] on a slider with autoplay. *)
Lemma sound_update st : sound options st -> sound options (update options st).
Proof.
  intros Hs. unfold update. by destruct (toggle st).
Qed.

Lemma sound_set_toggle t st : sound options st -> sound options (set_toggle t st).
Proof. done. Qed.

Lemma sound_listen st :
  autoplay options <> autoplay_false ->
  sound options st -> sound options (listen st).
Proof.
  intros Ha (H1 & H2 & H3 & H4 & H5 & H6).
  unfold sound, listen, isPaused in *. simpl. repeat split; done.
Qed.

Lemma consistent_play C st :
  consistent options st -> consistent options (play options C st).
Proof.
  intros [(H1 & H2 & H3 & H4 & H5 & H6) H7].
  rewrite play_result.
  destruct (isPaused st && Slides_isEnough C) eqn:Hrun; [|done].
  apply andb_true_iff in Hrun as [Hp _].
  unfold consistent, sound, synced, isPaused in *. simpl.
  split.
  - split; [done|]. split; [done|]. split; [|done].
    rewrite playing_after_app, H3, Hp. done.
  - intros _. unfold toggle_shows_stopped. simpl. by destruct (toggle st).
Qed.

Lemma consistent_pause stop st :
  consistent options st -> consistent options (pause options stop st).
Proof.
  intros [(H1 & H2 & H3 & H4 & H5 & H6) H7].
  rewrite pause_result. unfold consistent, sound, synced, isPaused in *. simpl.
  split.
  - split; [done|]. split; [done|]. split; [|done].
    rewrite playing_after_app, H3. by destruct (paused (timer st)).
  - intros _. unfold toggle_shows_stopped. simpl. by destruct (toggle st).
Qed.

Lemma consistent_autoToggle C st :
  consistent options st -> consistent options (autoToggle options C st).
Proof.
  intros Hc. unfold autoToggle.
  destruct (stopped st); simpl; [done|].
  destruct (truthy (hovered st) || truthy (focused st)).
  - by apply consistent_pause.
  - by apply consistent_play.
Qed.

Lemma consistent_hovered b st :
  pauseOnHover options = true ->
  consistent options st ->
  consistent options (set_flags (stopped st) (Some b) (focused st) st).
Proof.
  intros Ho [(H1 & H2 & H3 & H4 & H5 & H6) H7].
  unfold consistent, sound, synced, isPaused, toggle_shows_stopped in *. simpl.
  repeat split; try done. intros ?. congruence.
Qed.

Lemma consistent_focused b st :
  pauseOnFocus options = true ->
  consistent options st ->
  consistent options (set_flags (stopped st) (hovered st) (Some b) st).
Proof.
  intros Ho [(H1 & H2 & H3 & H4 & H5 & H6) H7].
  unfold consistent, sound, synced, isPaused, toggle_shows_stopped in *. simpl.
  repeat split; try done. intros ?. congruence.
Qed.

(** A call that is not an [emit], on a timer that is paused or running as
    before. *)
Lemma consistent_call e t st :
  (forall ev, e <> emit ev) ->
  consistent options st ->
  consistent options
    (call e (set_timer {| paused := paused (timer st); time := t |} st)).
Proof.
  intros He [(H1 & H2 & H3 & H4 & H5 & H6) H7].
  unfold consistent, sound, synced, isPaused, toggle_shows_stopped in *. simpl.
  repeat split; try done.
  rewrite playing_after_app, H3.
  destruct e; try done. by destruct (He e).
Qed.

Lemma consistent_same_timer e st :
  (forall ev, e <> emit ev) ->
  consistent options st -> consistent options (call e st).
Proof.
  intros He Hc.
  replace (call e st)
    with (call e (set_timer {| paused := paused (timer st);
                               time := time (timer st) |} st)).
  - by apply consistent_call.
  - by destruct st as [s hv fc b h k [p t] tg l tr].
Qed.

Lemma consistent_onMove C index st :
  consistent options st ->
  consistent options (onMove options StringToNumber C index st).
Proof. intros Hc. unfold onMove, timer_set. by apply consistent_call. Qed.

Lemma consistent_handle C e st :
  consistent options st ->
  consistent options (handle options StringToNumber C e st).
Proof.
  intros Hc. unfold handle.
  destruct (listening st); [|done].
  destruct e.
  - destruct (pauseOnHover options) eqn:Ho; [|done].
    by apply consistent_autoToggle, consistent_hovered.
  - destruct (pauseOnHover options) eqn:Ho; [|done].
    by apply consistent_autoToggle, consistent_hovered.
  - destruct (pauseOnFocus options) eqn:Ho; [|done].
    by apply consistent_autoToggle, consistent_focused.
  - destruct (pauseOnFocus options) eqn:Ho; [|done].
    by apply consistent_autoToggle, consistent_focused.
  - destruct (toggle st); [|done]. unfold on_click.
    destruct (stopped st); [by apply consistent_play|by apply consistent_pause].
  - apply consistent_onMove. by apply consistent_same_timer.
  - by apply consistent_same_timer.
  - by apply consistent_same_timer.
Qed.

Lemma consistent_mount C st :
  consistent options st -> consistent options (mount options C st).
Proof.
  intros [Hs Hy].
  assert (Hon : autoplay options <> autoplay_false ->
    consistent options
      (update options
         (let st1 := listen st in
          let st2 :=
            match toggle st1 with
            | Some t => set_toggle (Some {| class_active := class_active t;
                                            aria_label := aria_label t;
                                            aria_controls := Some (track_id C) |}) st1
            | None => st1
            end in
          if stopped st2 then st2 else play options C st2))).
  { intros Ha. split; [|intros _; apply update_shows_stopped].
    apply sound_update. cbv zeta.
    set (st2 := match toggle (listen st) with Some _ => _ | None => _ end).
    assert (Hs2 : sound options st2).
    { unfold st2. destruct (toggle (listen st));
        [apply sound_set_toggle|]; by apply sound_listen. }
    destruct (stopped st2); [done|].
    rewrite play_result.
    destruct (isPaused st2 && Slides_isEnough C) eqn:Hrun; [|done].
    apply andb_true_iff in Hrun as [Hp _].
    destruct Hs2 as (H1 & H2 & H3 & H4 & H5 & H6).
    unfold sound, isPaused in *. simpl.
    split; [done|]. split; [done|]. split; [|done].
    rewrite playing_after_app, H3, Hp. done. }
  unfold mount. destruct (autoplay options) eqn:Ha.
  - by split.
  - by apply Hon.
  - by apply Hon.
Qed.

(** The four cases of [shuffle]. *)
Lemma shuffle_cases C on st :
  match on, shuffleBuffer st with
  | true, Some _ | false, None => shuffle random C on st = st
  | false, Some _ =>
      shuffle random C on st = set_shuffle None (arrays st) (random_calls st) st
  | true, None =>
      exists p h',
        shuffle random C on st
        = set_shuffle (Some (S (length (arrays st)))) h'
            (random_calls st + (Slides_getLength C - 1)) st /\
        p ≡ₚ seq 0 (Slides_getLength C) /\
        length h' = length (arrays st) + 2 /\
        deref h' (S (length (arrays st))) = p /\
        (forall r, r < length (arrays st) -> h' !! r = arrays st !! r)
  end.
Proof.
  unfold shuffle.
  destruct on, (shuffleBuffer st) as [buf|] eqn:Hb; simpl; rewrite ?Hb; simpl;
    try done.
  destruct (initShuffle_effect random C (arrays st) (random_calls st))
    as (p & h' & -> & Hp & Hlen & Hnew & Hold).
  simpl. by exists p, h'.
Qed.

Lemma consistent_shuffle C on st :
  consistent options st -> consistent options (shuffle random C on st).
Proof.
  intros Hc. pose proof Hc as [(H1 & H2 & H3 & H4 & H5 & H6) H7].
  pose proof (shuffle_cases C on st) as Hcases.
  destruct on, (shuffleBuffer st) as [buf|] eqn:Hb.
  - by rewrite Hcases.
  - destruct Hcases as (p & h' & -> & _ & Hlen & _ & _).
    split; [|done].
    unfold sound, isPaused in *. simpl. repeat split; try done.
    intros buf [= <-]. lia.
  - rewrite Hcases. split; [|done].
    unfold sound, isPaused in *. simpl. repeat split; done.
  - by rewrite Hcases.
Qed.

Lemma consistent_tick fuel C st st' :
  onInterval random fuel C st = Some st' ->
  consistent options st -> consistent options st'.
Proof.
  intros Htick Hc.
  assert (Hnext : consistent options (call (Splide_go go_next) st))
    by (by apply consistent_same_timer).
  unfold onInterval in Htick.
  destruct (shuffleBuffer st) as [buf|] eqn:Hb; [|by injection Htick as <-].
  destruct (Nat.leb_spec (Slides_getLength C) 2) as [_|Hn];
    [by injection Htick as <-|].
  destruct Hc as [(H1 & H2 & H3 & H4 & H5 & H6) H7].
  destruct (drawLoop random fuel C (Slides_getLength C) buf (arrays st) (random_calls st))
    as [res|] eqn:Hloop; [|done].
  destruct (drawLoop_post random C fuel buf (arrays st) (random_calls st) res)
    as (y & buf' & h' & calls' & -> & Hlt & _); [lia|by apply H2|done|].
  injection Htick as <-.
  unfold consistent, sound, synced, isPaused, toggle_shows_stopped in *. simpl.
  repeat split; try done.
  - intros ? [= <-]. done.
  - by rewrite playing_after_app, H3.
Qed.

(** The states reached are consistent. *)
Lemma reachable_consistent st :
  reachable options random StringToNumber st -> consistent options st.
Proof.
  induction 1.
  - apply consistent_created.
  - by apply consistent_mount.
  - by apply consistent_play.
  - by apply consistent_pause.
  - by apply consistent_shuffle.
  - by apply consistent_handle.
  - by eapply consistent_tick.
Qed.

End Invariants.

(** ** Invariants of the slider *)

(** A reachable state, for the examples: the slider is created, mounted,
    the pointer enters it, and the toggle button is clicked. *)
Lemma example_reachable :
  reachable example_options example_random example_StringToNumber
    (handle example_options example_StringToNumber example_components click
       (handle example_options example_StringToNumber example_components mouseenter
          (mount example_options example_components
             (Autoplay example_options (Some example_toggle))))).
Proof. apply reach_event, reach_event, reach_mount, reach_created. Defined.

(** X1. In every state the slider reaches, a slider that has been stopped
    by hand has its timer paused. *)
Theorem stopped_implies_paused (options : Options) (random : nat -> fraction)
    (StringToNumber : string -> number) (st : State) :
  reachable options random StringToNumber st ->
  stopped st = true -> isPaused st = true.
Proof.
  intros Hr. by destruct (reachable_consistent options random StringToNumber st Hr)
    as [(H1 & _) _].
Qed.

Lemma stopped_implies_paused_witness :
  let st := handle example_options example_StringToNumber example_components click
       (handle example_options example_StringToNumber example_components mouseenter
          (mount example_options example_components
             (Autoplay example_options (Some example_toggle)))) in
  stopped st = true /\ isPaused st = true.
Proof.
  intros st.
  assert (Hs : stopped st = true) by reflexivity.
  split; [exact Hs|].
  exact (stopped_implies_paused example_options example_random
           example_StringToNumber st example_reachable Hs).
Defined.

(** X2. Once [mount()] has bound the handlers, the toggle button shows the
    [stopped] flag in every state the slider reaches: it carries the active
    class exactly when the slider is not stopped, and its label is the
    "play" text when stopped and the "pause" text otherwise. *)
Theorem toggle_follows_stopped (options : Options) (random : nat -> fraction)
    (StringToNumber : string -> number) (st : State) (t : ToggleElement) :
  reachable options random StringToNumber st ->
  listening st = true -> toggle st = Some t ->
  class_active t = negb (stopped st) /\
  aria_label t = Some (if stopped st then i18n_play options else i18n_pause options).
Proof.
  intros Hr Hl Ht.
  destruct (reachable_consistent options random StringToNumber st Hr) as [_ Hy].
  specialize (Hy Hl). unfold toggle_shows_stopped in Hy. by rewrite Ht in Hy.
Qed.

Lemma toggle_follows_stopped_witness :
  let st := handle example_options example_StringToNumber example_components click
       (handle example_options example_StringToNumber example_components mouseenter
          (mount example_options example_components
             (Autoplay example_options (Some example_toggle)))) in
  listening st = true /\
  toggle st = Some {| class_active := false;
                      aria_label := Some "Start autoplay";
                      aria_controls := Some "splide01-track" |} /\
  false = negb (stopped st) /\
  Some "Start autoplay"
  = Some (if stopped st then i18n_play example_options else i18n_pause example_options).
Proof.
  intros st.
  assert (Hl : listening st = true) by reflexivity.
  assert (Ht : toggle st = Some {| class_active := false;
                                   aria_label := Some "Start autoplay";
                                   aria_controls := Some "splide01-track" |})
    by reflexivity.
  split; [exact Hl|]. split; [exact Ht|].
  exact (toggle_follows_stopped example_options example_random
           example_StringToNumber st _ example_reachable Hl Ht).
Defined.

(** X3. The play and pause events come in turns, a play event first, and
    the timer runs exactly when the last event emitted is a play event: no
    play event is emitted while autoplay runs and no pause event while it
    does not. *)
Theorem events_alternate (options : Options) (random : nat -> fraction)
    (StringToNumber : string -> number) (st : State) :
  reachable options random StringToNumber st ->
  playing_after (emitted (trace st)) = Some (negb (isPaused st)).
Proof.
  intros Hr. by destruct (reachable_consistent options random StringToNumber st Hr)
    as [(_ & _ & H3 & _) _].
Qed.

Lemma events_alternate_witness :
  let st := handle example_options example_StringToNumber example_components click
       (handle example_options example_StringToNumber example_components mouseenter
          (mount example_options example_components
             (Autoplay example_options (Some example_toggle)))) in
  emitted (trace st) = [EVENT_AUTOPLAY_PLAY; EVENT_AUTOPLAY_PAUSE] /\
  playing_after (emitted (trace st)) = Some (negb (isPaused st)).
Proof.
  intros st. split; [reflexivity|].
  exact (events_alternate example_options example_random
           example_StringToNumber st example_reachable).
Defined.

(** X4. A slider without [pauseOnHover] never has its [hovered] flag true,
    and one without [pauseOnFocus] never has its [focused] flag true: the
    pointer and the focus cannot hold back such a slider. *)
Theorem flags_need_their_option (options : Options) (random : nat -> fraction)
    (StringToNumber : string -> number) (st : State) :
  reachable options random StringToNumber st ->
  (pauseOnHover options = false -> truthy (hovered st) = false) /\
  (pauseOnFocus options = false -> truthy (focused st) = false).
Proof.
  intros Hr. by destruct (reachable_consistent options random StringToNumber st Hr)
    as [(_ & _ & _ & H4 & H5 & _) _].
Qed.

(** X5. A slider created with [autoplay] off never listens: in every state
    it reaches, [mount()] and every event leave the state as it is. *)
Theorem autoplay_off_ignores_events (options : Options) (random : nat -> fraction)
    (StringToNumber : string -> number) (st : State) :
  reachable options random StringToNumber st ->
  autoplay options = autoplay_false ->
  listening st = false /\
  (forall C, mount options C st = st) /\
  (forall C e, handle options StringToNumber C e st = st).
Proof.
  intros Hr Ha.
  destruct (reachable_consistent options random StringToNumber st Hr)
    as [(_ & _ & _ & _ & _ & H6) _].
  split; [by apply H6|]. split.
  - intros C. unfold mount. by rewrite Ha.
  - intros C e. unfold handle. by rewrite (H6 Ha).
Qed.

Lemma flags_need_their_option_witness :
  let st := handle example_options_no_hover example_StringToNumber example_components focusin
       (handle example_options_no_hover example_StringToNumber example_components mouseenter
          (mount example_options_no_hover example_components
             (Autoplay example_options_no_hover None))) in
  reachable example_options_no_hover example_random example_StringToNumber st /\
  truthy (hovered st) = false /\ truthy (focused st) = false /\ isPaused st = false.
Proof.
  intros st.
  assert (Hr : reachable example_options_no_hover example_random example_StringToNumber st)
    by apply reach_event, reach_event, reach_mount, reach_created.
  split; [exact Hr|].
  destruct (flags_need_their_option example_options_no_hover example_random
              example_StringToNumber st Hr) as [Hh Hf].
  split; [exact (Hh eq_refl)|]. split; [exact (Hf eq_refl)|reflexivity].
Defined.

Lemma autoplay_off_ignores_events_witness :
  let st := play example_options_off example_components
              (mount example_options_off example_components
                 (Autoplay example_options_off (Some example_toggle))) in
  reachable example_options_off example_random example_StringToNumber st /\
  autoplay example_options_off = autoplay_false /\
  listening st = false /\
  (forall C, mount example_options_off C st = st) /\
  (forall C e, handle example_options_off example_StringToNumber C e st = st).
Proof.
  intros st.
  assert (Hr : reachable example_options_off example_random example_StringToNumber st)
    by apply reach_play, reach_mount, reach_created.
  split; [exact Hr|]. split; [reflexivity|].
  exact (autoplay_off_ignores_events example_options_off example_random
           example_StringToNumber st Hr eq_refl).
Defined.

(** ** The tick on the states the slider reaches *)

(** A tick changes the buffer, the store and the count of random draws at
    most, and calls [Splide.go] once. *)
Lemma onInterval_frame (random : nat -> fraction) fuel (C : Components) (st st' : State) :
  onInterval random fuel C st = Some st' ->
  exists b h calls target,
    st' = call (Splide_go target) (set_shuffle b h calls st).
Proof.
  unfold onInterval. intros Htick.
  assert (Hsame : st = set_shuffle (shuffleBuffer st) (arrays st) (random_calls st) st)
    by (by destruct st).
  destruct (shuffleBuffer st) as [buf|] eqn:Hb.
  - destruct (Slides_getLength C <=? 2).
    + injection Htick as <-. eexists _, _, _, _. by rewrite <- Hsame.
    + destruct (drawLoop random fuel C (Slides_getLength C) buf (arrays st) (random_calls st))
        as [[[[nextIndex buf'] h'] calls']|]; [|done].
      injection Htick as <-. by eexists _, _, _, _.
  - injection Htick as <-. eexists _, _, _, _. by rewrite <- Hsame.
Qed.



(** X7. In every state the slider reaches, a running timer means that the
    slider is not stopped and that neither [hovered] nor [focused] is
    true. *)
Theorem running_means_free (options : Options) (random : nat -> fraction)
    (StringToNumber : string -> number) (st : State) :
  reachable options random StringToNumber st ->
  isPaused st = false ->
  stopped st = false /\ truthy (hovered st) = false /\ truthy (focused st) = false.
Proof.
  assert (Hplay : forall C x,
    (isPaused x = false ->
     stopped x = false /\ truthy (hovered x) = false /\ truthy (focused x) = false) ->
    isPaused (play options C x) = false ->
    stopped (play options C x) = false /\
    truthy (hovered (play options C x)) = false /\
    truthy (focused (play options C x)) = false).
  { intros C x Hx. rewrite play_result.
    by destruct (isPaused x && Slides_isEnough C). }
  assert (Hpause : forall stop x,
    isPaused (pause options stop x) = false ->
    stopped (pause options stop x) = false /\
    truthy (hovered (pause options stop x)) = false /\
    truthy (focused (pause options stop x)) = false).
  { intros stop x. by rewrite pause_result. }
  induction 1 as [toggle0|C st Hr IH|C st Hr IH|stop st Hr IH|C on st Hr IH
                  |C e st Hr IH|fuel C st st' Hr IH Htick].
  - done.
  - destruct (reachable_consistent options random StringToNumber st Hr)
      as [(H1 & _) _].
    assert (Hon : forall x,
      stopped x = stopped st -> hovered x = hovered st -> focused x = focused st ->
      timer x = timer st ->
      let y := update options (if stopped x then x else play options C x) in
      isPaused y = false ->
      stopped y = false /\ truthy (hovered y) = false /\ truthy (focused y) = false).
    { intros x Hxs Hxh Hxf Hxt y.
      assert (Hy : forall z, let y := update options z in
                  stopped y = stopped z /\ hovered y = hovered z /\
                  focused y = focused z /\ isPaused y = isPaused z).
      { intros z. unfold update. by destruct (toggle z). }
      subst y.
      destruct (Hy (if stopped x then x else play options C x)) as (-> & -> & -> & ->).
      destruct (stopped x) eqn:Hs.
      - unfold isPaused in *. rewrite Hxt. intros Hp.
        assert (Hst : stopped st = true) by congruence.
        rewrite (H1 Hst) in Hp. discriminate Hp.
      - apply Hplay. intros Hp. unfold isPaused in Hp. rewrite Hxt in Hp.
        destruct (IH Hp) as (_ & Hh & Hf).
        split; [exact Hs|]. by rewrite Hxh, Hxf. }
    unfold mount. destruct (autoplay options); [done| |].
    all: unfold listen; destruct (toggle (set_listening true st)); by apply Hon.
  - by apply Hplay.
  - by apply Hpause.
  - pose proof (shuffle_cases random C on st) as Hcases.
    destruct on, (shuffleBuffer st); try (by rewrite Hcases).
    by destruct Hcases as (p & h' & -> & _).
  - destruct (reachable_consistent options random StringToNumber st Hr)
      as [(H1 & _) _].
    assert (Hflag : forall h f,
      (truthy h || truthy f = false ->
       isPaused st = false -> truthy h = false /\ truthy f = false) ->
      let x := autoToggle options C (set_flags (stopped st) h f st) in
      isPaused x = false ->
      stopped x = false /\ truthy (hovered x) = false /\ truthy (focused x) = false).
    { intros h f Hhf x. subst x. unfold autoToggle. simpl.
      destruct (stopped st) eqn:Hs; simpl.
      - intros Hp. unfold isPaused in *. simpl in Hp.
        rewrite (H1 eq_refl) in Hp. discriminate Hp.
      - destruct (truthy h || truthy f) eqn:Hb; [by apply Hpause|].
        apply Hplay. unfold isPaused. simpl. intros Hp.
        by destruct (Hhf eq_refl Hp). }
    unfold handle. destruct (listening st); [|done].
    destruct e.
    + destruct (pauseOnHover options); [|done].
      apply Hflag. simpl. intros Hf _. done.
    + destruct (pauseOnHover options); [|done].
      apply Hflag. simpl. intros Hf _. done.
    + destruct (pauseOnFocus options); [|done].
      apply Hflag. intros Hb _. by apply orb_false_iff in Hb.
    + destruct (pauseOnFocus options); [|done].
      apply Hflag. intros Hb _. by apply orb_false_iff in Hb.
    + destruct (toggle st); [|done]. unfold on_click.
      destruct (stopped st) eqn:Hs; [|by apply Hpause].
      apply Hplay. rewrite Hs. exact IH.
    + done.
    + done.
    + done.
  - destruct (onInterval_frame random fuel C st st' Htick)
      as (b & h & calls & target & ->).
    done.
Qed.

Lemma running_means_free_witness :
  let st := mount example_options example_components
              (Autoplay example_options (Some example_toggle)) in
  isPaused st = false /\
  stopped st = false /\ truthy (hovered st) = false /\ truthy (focused st) = false.
Proof.
  intros st.
  assert (Hp : isPaused st = false) by reflexivity.
  split; [exact Hp|].
  exact (running_means_free example_options example_random example_StringToNumber st
           ltac:(apply reach_mount, reach_created) Hp).
Defined.

(** ** Hover, focus and the toggle button *)









(** X12. [play()] and [pause( stop )] are idempotent: a second call in a
    row, with the same slides and the same argument, changes nothing and
    emits nothing. *)
Theorem play_pause_idempotent (options : Options) (C : Components)
    (stop : bool) (st : State) :
  play options C (play options C st) = play options C st /\
  pause options stop (pause options stop st) = pause options stop st.
Proof.
  split.
  - rewrite (play_result options C st).
    destruct (isPaused st && Slides_isEnough C) eqn:Hrun.
    + by rewrite play_result.
    + by rewrite play_result, Hrun.
  - rewrite !pause_result. simpl. rewrite app_nil_r.
    by destruct (toggle st).
Qed.

(** ** Mounting *)

(** An event other than a click, on a stopped slider with a paused timer:
    the slider stays stopped and paused and nothing is emitted. *)
Lemma handle_quiet (options : Options) (StringToNumber : string -> number)
    (C : Components) (e : input) (st : State) :
  stopped st = true -> isPaused st = true -> e <> click ->
  let st' := handle options StringToNumber C e st in
  stopped st' = true /\ isPaused st' = true /\
  emitted (trace st') = emitted (trace st).
Proof.
  intros Hs Hp He st'. subst st'. unfold handle.
  destruct (listening st); [|done].
  destruct e; try done.
  - destruct (pauseOnHover options); [|done].
    unfold on_mouse. by rewrite autoToggle_stopped.
  - destruct (pauseOnHover options); [|done].
    unfold on_mouse. by rewrite autoToggle_stopped.
  - destruct (pauseOnFocus options); [|done].
    unfold on_focus. by rewrite autoToggle_stopped.
  - destruct (pauseOnFocus options); [|done].
    unfold on_focus. by rewrite autoToggle_stopped.
  - unfold onMove, timer_set, timer_rewind, isPaused, emitted in *. simpl.
    rewrite !omap_app. simpl. by rewrite !app_nil_r.
  - unfold timer_rewind, isPaused, emitted in *. simpl.
    rewrite !omap_app. simpl. by rewrite !app_nil_r.
  - unfold timer_rewind, isPaused, emitted in *. simpl.
    rewrite !omap_app. simpl. by rewrite !app_nil_r.
Qed.

(** X13. A slider created with [autoplay: 'pause'] is stopped when it is
    mounted: its timer is paused and nothing has been emitted, and this
    stays so through any events other than a click on the toggle button
    (pointer, focus, moves, scrolls, refreshes), whatever the slides. *)
Theorem mount_paused_stays_paused (options : Options)
    (StringToNumber : string -> number) (toggle0 : option ToggleElement)
    (C : Components) (events : list (Components * input)) :
  autoplay options = autoplay_pause ->
  Forall (fun ce => snd ce <> click) events ->
  let st := run options StringToNumber events
              (mount options C (Autoplay options toggle0)) in
  stopped st = true /\ isPaused st = true /\ emitted (trace st) = [].
Proof.
  intros Ha Hall st. subst st.
  assert (Hstart : let st0 := mount options C (Autoplay options toggle0) in
            stopped st0 = true /\ isPaused st0 = true /\ emitted (trace st0) = []).
  { unfold mount, Autoplay, update, listen, isPaused. rewrite Ha. simpl.
    by destruct toggle0. }
  simpl in Hstart.
  revert Hstart. generalize (mount options C (Autoplay options toggle0)).
  induction events as [|[C' e] events IH]; intros st0 Hst0; [done|].
  inversion Hall as [|? ? He Hall']; subst. simpl in He.
  destruct Hst0 as (Hs & Hp & Hem).
  destruct (handle_quiet options StringToNumber C' e st0 Hs Hp He) as (Hs' & Hp' & Hem').
  unfold run in *. simpl. apply IH; [done|].
  split; [done|]. split; [done|]. by rewrite Hem'.
Qed.

Lemma mount_paused_stays_paused_witness :
  let options :=
    {| autoplay := autoplay_pause; interval := Finite (5000 # 1);
       pauseOnHover := true; pauseOnFocus := true; resetProgress := false;
       autoplayShuffle := false;
       i18n_play := "Start autoplay"; i18n_pause := "Pause autoplay" |} in
  let events := [(example_components, mouseenter); (example_components, EVENT_MOVE 1);
                 (example_components, mouseleave); (example_components, focusout)] in
  let st := run options example_StringToNumber events
              (mount options example_components (Autoplay options (Some example_toggle))) in
  Forall (fun ce => snd ce <> click) events /\
  stopped st = true /\ isPaused st = true /\ emitted (trace st) = [].
Proof.
  intros options events st.
  assert (Hall : Forall (fun ce => snd ce <> click) events)
    by (repeat constructor; discriminate).
  split; [exact Hall|].
  exact (mount_paused_stays_paused options example_StringToNumber (Some example_toggle)
           example_components events eq_refl Hall).
Defined.

(** X14. Mounting a slider created with [autoplay: true]: the handlers
    are bound, the slider is not stopped, and the timer is started, with
    one play event, exactly when there are enough slides; otherwise the
    timer stays paused and nothing is emitted.  The toggle button, when
    there is one, is tied to the track and carries the active class and the
    "pause" label. *)
Theorem mount_starts_when_enough (options : Options)
    (toggle0 : option ToggleElement) (C : Components) :
  autoplay options = autoplay_true ->
  let st := mount options C (Autoplay options toggle0) in
  listening st = true /\ stopped st = false /\
  isPaused st = negb (Slides_isEnough C) /\
  trace st = (if Slides_isEnough C
              then [interval_start (negb (resetProgress options));
                    emit EVENT_AUTOPLAY_PLAY]
              else []) /\
  toggle st = match toggle0 with
              | Some t => Some {| class_active := true;
                                  aria_label := Some (i18n_pause options);
                                  aria_controls := Some (track_id C) |}
              | None => None
              end.
Proof.
  intros Ha st. subst st.
  unfold mount, Autoplay, listen. rewrite Ha. simpl.
  destruct toggle0 as [t|]; simpl; rewrite play_result; unfold isPaused; simpl;
    destruct (Slides_isEnough C); simpl; done.
Qed.

Lemma mount_starts_when_enough_witness :
  let st := mount example_options example_single (Autoplay example_options None) in
  autoplay example_options = autoplay_true /\
  listening st = true /\ stopped st = false /\ isPaused st = true /\ trace st = [].
Proof.
  intros st. split; [reflexivity|].
  destruct (mount_starts_when_enough example_options None example_single eq_refl)
    as (Hl & Hs & Hp & Ht & _).
  split; [exact Hl|]. split; [exact Hs|]. split; [exact Hp|exact Ht].
Defined.

(** ** More on the permutation generator *)

Section ShuffleFacts.
Context {T : Type}.
Implicit Types (h : list (list T)) (a p : list T).

(** A swap with an index that is not above [index] leaves the positions
    above [index] alone. *)
Lemma swap_lookup_above a index newIndex j :
  newIndex <= index -> index < j -> swap a index newIndex !! j = a !! j.
Proof.
  intros Hle Hlt. unfold swap.
  destruct (a !! newIndex); [|done]. destruct (a !! index); [|done].
  rewrite !list_lookup_insert_ne by lia. done.
Qed.

(** Inside the array, position [index] receives the entry that was at
    [newIndex]. *)
Lemma swap_lookup_index a index newIndex :
  newIndex <= index -> index < length a ->
  swap a index newIndex !! index = a !! newIndex.
Proof.
  intros Hle Hlt.
  destruct (swap_in_range a index newIndex Hle Hlt) as (x & y & Hx & Hy & ->).
  rewrite Hx. destruct (decide (newIndex = index)) as [->|Hne].
  - rewrite list_lookup_insert_eq by (by rewrite length_insert). congruence.
  - rewrite list_lookup_insert_ne by done.
    by rewrite list_lookup_insert_eq.
Qed.

Lemma length_swap a index newIndex : length (swap a index newIndex) = length a.
Proof.
  unfold swap. destruct (a !! newIndex); [|done]. destruct (a !! index); [|done].
  by rewrite !length_insert.
Qed.


End ShuffleFacts.

(** X15. [shuffleArray] calls [Math.random()] once for every entry but
    one.  On an array with no entry or a single one it makes no call and
    returns an exact copy; so [initShuffle()] on a slider with at most one
    slide returns [[]] or [[0]] without a random draw. *)
Theorem shuffleArray_draws_length_minus_one :
  (forall (T : Type) (random : nat -> fraction) (h : list (list T))
          (arr : ref) (calls : nat) (a : list T),
     h !! arr = Some a ->
     exists p,
       shuffleArray random arr h calls
       = (length h, h ++ [p], calls + (length a - 1)) /\
       (length a <= 1 -> p = a /\ calls + (length a - 1) = calls)) /\
  (forall (random : nat -> fraction) (C : Components)
          (h : list (list nat)) (calls : nat),
     Slides_getLength C <= 1 ->
     initShuffle random C h calls
     = (S (length h),
        h ++ [seq 0 (Slides_getLength C); seq 0 (Slides_getLength C)], calls)).
Proof.
  assert (Hshort : forall (T : Type) (a p : list T),
            p ≡ₚ a -> length a <= 1 -> p = a).
  { intros T [|x [|y a]] p Hp Hlen; simpl in Hlen; [| |lia].
    - symmetry in Hp. by apply Permutation_nil in Hp.
    - symmetry in Hp. by apply Permutation_length_1_inv in Hp. }
  split.
  - intros T random h arr calls a Ha.
    destruct (shuffleArray_spec random arr h calls) as (p & Hp & Heq).
    rewrite (deref_lookup _ _ _ Ha) in Hp, Heq.
    exists p. split; [done|]. intros Hlen. split; [by apply Hshort|lia].
  - intros random C h calls Hn.
    destruct (initShuffle_spec random C h calls) as (p & Hp & ->).
    rewrite (Hshort _ _ _ Hp) by (by rewrite length_seq).
    f_equal. lia.
Qed.

Lemma shuffleArray_draws_length_minus_one_witness :
  [[7]] !! 0 = Some [7] /\
  exists p,
    shuffleArray example_random 0 [[7]] 5 = (1, [[7]] ++ [p], 5 + (1 - 1)) /\
    (1 <= 1 -> p = [7] /\ 5 + (1 - 1) = 5).
Proof.
  split; [reflexivity|].
  exact (proj1 shuffleArray_draws_length_minus_one nat example_random [[7]] 0 5 [7]
           eq_refl).
Defined.



(** ** Every order can come out *)

Section EveryOrder.
Context {T : Type}.
Implicit Types (h : list (list T)) (a target : list T).

(** The loop looks at the random numbers from call [calls] on only. *)
Lemma shuffleLoop_ext (r1 r2 : nat -> fraction) index arr h calls :
  (forall k, calls <= k -> r1 k = r2 k) ->
  shuffleLoop r1 index arr h calls = shuffleLoop r2 index arr h calls.
Proof.
  revert h calls. induction index as [|i IH]; intros h calls Hext; [done|].
  cbn [shuffleLoop]. rewrite (Hext calls) by lia.
  apply IH. intros k Hk. apply Hext. lia.
Qed.

(** The random number that makes a pass pick [j]. *)
Lemma floor_mul_pick (j index : nat) :
  j <= index ->
  floor_mul {| numer := j; below_one := index - j |} (index + 1) = j.
Proof.
  intros Hj. unfold floor_mul. simpl.
  replace (j + (index - j) + 1) with (index + 1) by lia.
  apply Nat.div_mul. lia.
Qed.

(** Two arrangements of the same entries that agree from position [m] on
    have the same entries before it. *)
Lemma perm_agree_take a target m :
  target ≡ₚ a -> (forall j, m <= j -> target !! j = a !! j) ->
  take m target ≡ₚ take m a.
Proof.
  intros Hp Hagree.
  assert (Hdrop : drop m target = drop m a).
  { apply list_eq. intros i. rewrite !lookup_drop. apply Hagree. lia. }
  apply (Permutation_app_inv_r (drop m a)).
  rewrite <- Hdrop at 1. by rewrite !take_drop.
Qed.

(** Any arrangement of the entries that leaves the positions above [index]
    as they are is what the passes from [index] down give, for suitable
    random numbers. *)
Lemma shuffleLoop_reaches index :
  forall arr h calls a target,
  h !! arr = Some a -> index < length a ->
  target ≡ₚ a -> (forall j, index < j -> target !! j = a !! j) ->
  exists random,
    shuffleLoop random index arr h calls = (<[arr := target]> h, calls + index).
Proof.
  induction index as [|k IH]; intros arr h calls a target Ha Hlt Hp Hagree.
  - exists (fun _ => {| numer := 0; below_one := 0 |}). simpl.
    rewrite Nat.add_0_r. f_equal.
    assert (Hone : take 1 target ≡ₚ take 1 a).
    { apply perm_agree_take; [done|]. intros j Hj. apply Hagree. lia. }
    assert (Hlen : length target = length a) by (by rewrite Hp).
    assert (target = a) as ->; [|by rewrite list_insert_id].
    rewrite <- (take_drop 1 target), <- (take_drop 1 a). f_equal.
    + destruct a as [|x a]; [simpl in Hlt; lia|].
      destruct target as [|y target]; [done|].
      simpl in Hone. rewrite take_0 in Hone. simpl in Hone.
      by apply Permutation_length_1_inv in Hone.
    + apply list_eq. intros i. rewrite !lookup_drop. apply Hagree. lia.
  - assert (Hlen : length target = length a) by (by rewrite Hp).
    destruct (lookup_lt_is_Some_2 target (S k)) as [v Hv]; [lia|].
    assert (Hin : v ∈ take (S (S k)) a).
    { rewrite <- (perm_agree_take a target (S (S k)) Hp)
        by (intros j Hj; apply Hagree; lia).
      apply list_elem_of_lookup. exists (S k).
      rewrite lookup_take_lt by lia. done. }
    apply list_elem_of_lookup in Hin as [j Hj].
    assert (Hjlt : j < S (S k)).
    { apply lookup_lt_Some in Hj. rewrite length_take in Hj. lia. }
    rewrite lookup_take_lt in Hj by done.
    set (a' := swap a (S k) j).
    assert (Harr : arr < length h) by (by eapply lookup_lt_Some).
    destruct (IH arr (assign h arr a') (S calls) a' target) as [random' Hloop].
    + unfold assign. by apply list_lookup_insert_eq.
    + unfold a'. rewrite length_swap. lia.
    + unfold a'. by rewrite swap_perm.
    + intros i Hi. unfold a'.
      destruct (decide (i = S k)) as [->|Hne].
      * rewrite swap_lookup_index by lia. congruence.
      * rewrite swap_lookup_above by lia. apply Hagree. lia.
    + exists (fun c => if decide (c = calls)
                       then {| numer := j; below_one := S k - j |}
                       else random' c).
      cbn [shuffleLoop]. rewrite decide_True by done.
      rewrite floor_mul_pick by lia.
      rewrite (deref_lookup _ _ _ Ha). fold a'.
      rewrite (shuffleLoop_ext _ random').
      * rewrite Hloop. unfold assign. rewrite list_insert_insert_eq.
        f_equal. lia.
      * intros c Hc. rewrite decide_False by lia. done.
Qed.

End EveryOrder.

Lemma shuffleArray_reaches (T : Type) (h : list (list T))
    (arr : ref) (calls : nat) (a target : list T) :
  h !! arr = Some a -> target ≡ₚ a ->
  exists random,
    shuffleArray random arr h calls
    = (length h, h ++ [target], calls + (length a - 1)).
Proof.
  intros Ha Hp. unfold shuffleArray, alloc.
  assert (Hnew : (h ++ [deref h arr]) !! length h = Some (deref h arr)).
  { by rewrite lookup_app_r, Nat.sub_diag by lia. }
  rewrite (deref_lookup _ _ _ Hnew), (deref_lookup _ _ _ Ha) in *.
  assert (Hfinish : forall random,
    shuffleLoop random (length a - 1) (length h) (h ++ [a]) calls
    = (<[length h := target]> (h ++ [a]), calls + (length a - 1)) ->
    (let '(h2, calls') :=
       shuffleLoop random (length a - 1) (length h) (h ++ [a]) calls in
     (length h, h2, calls'))
    = (length h, h ++ [target], calls + (length a - 1))).
  { intros random ->. f_equal. f_equal.
    rewrite insert_app_r_alt, Nat.sub_diag by lia. done. }
  assert (Hlen : length target = length a) by (by rewrite Hp).
  destruct a as [|x a].
  - exists (fun _ => {| numer := 0; below_one := 0 |}). apply Hfinish.
    apply Permutation_nil_r in Hp as ->. simpl.
    rewrite Nat.add_0_r. f_equal.
    by rewrite insert_app_r_alt, Nat.sub_diag by lia.
  - destruct (shuffleLoop_reaches (length (x :: a) - 1) (length h) (h ++ [x :: a])
                calls (x :: a) target) as [random Hloop]; try done.
    + simpl. lia.
    + intros j Hj. rewrite !lookup_ge_None_2; [done| |]; simpl in *; lia.
    + exists random. by apply Hfinish.
Qed.

(** X17. Every order can come out of [shuffleArray]: for any array and any
    rearrangement of its entries, there are random numbers for which
    [shuffleArray] returns that rearrangement.  So every order of the slide
    indices can come out of [initShuffle()]. *)
Theorem shuffleArray_reaches_every_order :
  (forall (T : Type) (h : list (list T)) (arr : ref) (calls : nat)
          (a target : list T),
     h !! arr = Some a -> target ≡ₚ a ->
     exists random,
       shuffleArray random arr h calls
       = (length h, h ++ [target], calls + (length a - 1))) /\
  (forall (C : Components) (h : list (list nat)) (calls : nat) (target : list nat),
     target ≡ₚ seq 0 (Slides_getLength C) ->
     exists random,
       initShuffle random C h calls
       = (S (length h), h ++ [seq 0 (Slides_getLength C); target],
          calls + (Slides_getLength C - 1))).
Proof.
  split; [apply shuffleArray_reaches|].
  intros C h calls target Hp. unfold initShuffle, range, alloc.
  destruct (shuffleArray_reaches nat (h ++ [seq 0 (Slides_getLength C)]) (length h)
              calls (seq 0 (Slides_getLength C)) target) as [random Heq]; [|done|].
  { by rewrite lookup_app_r, Nat.sub_diag by lia. }
  exists random. rewrite Heq.
  rewrite length_app, length_seq, <- app_assoc. simpl.
  repeat f_equal. lia.
Qed.

Lemma shuffleArray_reaches_every_order_witness :
  [[10; 20; 30]] !! 0 = Some [10; 20; 30] /\
  [30; 10; 20] ≡ₚ [10; 20; 30] /\
  exists random,
    shuffleArray random 0 [[10; 20; 30]] 0
    = (1, [[10; 20; 30]] ++ [[30; 10; 20]], 0 + (3 - 1)).
Proof.
  assert (Hp : [30; 10; 20] ≡ₚ [10; 20; 30]).
  { apply (perm_trans (l' := [10; 30; 20])); [apply perm_swap|].
    apply perm_skip, perm_swap. }
  split; [reflexivity|]. split; [exact Hp|].
  exact (proj1 shuffleArray_reaches_every_order nat [[10; 20; 30]] 0 0 [10; 20; 30]
           [30; 10; 20] eq_refl Hp).
Defined.

(** ** Turning shuffle off and on again *)

(** X18. Turning shuffle off and on again renews the buffer: whatever the
    buffer held, the new buffer is a new array, a rearrangement of the
    slide indices of the moment; the arrays there were, the flags, the
    timer, the toggle button and the trace are as before. *)
Theorem shuffle_off_on_renews (random : nat -> fraction) (C1 C2 : Components)
    (st : State) :
  let st' := shuffle random C2 true (shuffle random C1 false st) in
  (exists r p,
     shuffleBuffer st' = Some r /\
     arrays st !! r = None /\
     arrays st' !! r = Some p /\
     p ≡ₚ seq 0 (Slides_getLength C2)) /\
  (forall r0, r0 < length (arrays st) -> arrays st' !! r0 = arrays st !! r0) /\
  stopped st' = stopped st /\ hovered st' = hovered st /\ focused st' = focused st /\
  timer st' = timer st /\ toggle st' = toggle st /\ listening st' = listening st /\
  trace st' = trace st.
Proof.
  intros st'. subst st'.
  set (st1 := shuffle random C1 false st).
  assert (H1 : shuffleBuffer st1 = None /\ arrays st1 = arrays st /\
               random_calls st1 = random_calls st /\
               stopped st1 = stopped st /\ hovered st1 = hovered st /\
               focused st1 = focused st /\ timer st1 = timer st /\
               toggle st1 = toggle st /\ listening st1 = listening st /\
               trace st1 = trace st).
  { pose proof (shuffle_cases random C1 false st) as Hc. subst st1.
    destruct (shuffleBuffer st) eqn:Hb; rewrite Hc; simpl; by rewrite ?Hb. }
  destruct H1 as (Hb1 & Ha1 & Hk1 & Hs & Hh & Hf & Ht & Hg & Hl & Htr).
  pose proof (shuffle_cases random C2 true st1) as Hc. rewrite Hb1 in Hc.
  destruct Hc as (p & h' & -> & Hp & Hlen & Hnew & Hold). simpl.
  rewrite Ha1 in *.
  split; [|by repeat split].
  exists (S (length (arrays st))), p.
  split; [done|]. split; [apply lookup_ge_None; lia|]. split; [|done].
  rewrite <- Hnew. apply lookup_deref. lia.
Qed.

(** ** The duration of the timer *)

(** X19. In every state the slider reaches, the duration of the timer is
    [options.interval] or a truthy number: no attribute of a slide ever
    sets the timer to zero or to [NaN]. *)
Theorem timer_duration_never_falsy (options : Options) (random : nat -> fraction)
    (StringToNumber : string -> number) (st : State) :
  reachable options random StringToNumber st ->
  time (timer st) = interval options \/ ToBoolean (time (timer st)) = true.
Proof.
  assert (Hplay : forall C x, time (timer (play options C x)) = time (timer x)).
  { intros C x. rewrite play_result. by destruct (isPaused x && Slides_isEnough C). }
  assert (Hpause : forall stop x, time (timer (pause options stop x)) = time (timer x)).
  { intros stop x. by rewrite pause_result. }
  assert (Hauto : forall C x, time (timer (autoToggle options C x)) = time (timer x)).
  { intros C x. unfold autoToggle.
    destruct (stopped x); simpl; [done|].
    by destruct (truthy (hovered x) || truthy (focused x)). }
  assert (Hupdate : forall x, time (timer (update options x)) = time (timer x)).
  { intros x. unfold update. by destruct (toggle x). }
  induction 1 as [toggle0|C st Hr IH|C st Hr IH|stop st Hr IH|C on st Hr IH
                  |C e st Hr IH|fuel C st st' Hr IH Htick].
  - by left.
  - unfold mount. destruct (autoplay options); [done| |].
    all: rewrite Hupdate; unfold listen;
      destruct (toggle (set_listening true st)); simpl;
      destruct (stopped st); simpl; rewrite ?Hplay; done.
  - by rewrite Hplay.
  - by rewrite Hpause.
  - pose proof (shuffle_cases random C on st) as Hcases.
    destruct on, (shuffleBuffer st); try (by rewrite Hcases).
    by destruct Hcases as (p & h' & -> & _).
  - unfold handle. destruct (listening st); [|done].
    destruct e.
    + destruct (pauseOnHover options); [|done]. unfold on_mouse. by rewrite Hauto.
    + destruct (pauseOnHover options); [|done]. unfold on_mouse. by rewrite Hauto.
    + destruct (pauseOnFocus options); [|done]. unfold on_focus. by rewrite Hauto.
    + destruct (pauseOnFocus options); [|done]. unfold on_focus. by rewrite Hauto.
    + destruct (toggle st); [|done]. unfold on_click.
      destruct (stopped st); by rewrite ?Hplay, ?Hpause.
    + unfold onMove. simpl.
      destruct (Slides_getAt C index) as [Slide|]; [|by left].
      unfold number_or.
      destruct (ToBoolean (to_number StringToNumber (interval_attribute Slide))) eqn:Hb;
        [by right|by left].
    + done.
    + done.
  - destruct (onInterval_frame random fuel C st st' Htick)
      as (b & h & calls & target & ->).
    done.
Qed.

Lemma timer_duration_never_falsy_witness :
  let st := handle example_options example_StringToNumber example_components
              (EVENT_MOVE 1)
              (handle example_options example_StringToNumber example_components
                 (EVENT_MOVE 0)
                 (mount example_options example_components
                    (Autoplay example_options None))) in
  time (timer st) = Finite (1500 # 1) /\
  (time (timer st) = interval example_options \/ ToBoolean (time (timer st)) = true).
Proof.
  intros st. split; [reflexivity|].
  exact (timer_duration_never_falsy example_options example_random
           example_StringToNumber st
           ltac:(apply reach_event, reach_event, reach_mount, reach_created)).
Defined.

(** ** The tick follows the buffer *)

(** X20. In shuffle mode with more than two slides, the slides are visited
    in the order of the buffer.  When the first entry of the buffer is a
    slide index other than the one showing, the tick goes to it and removes
    it from the buffer, whose other entries stay in order (a permutation
    being appended when fewer than [slideCount] are left).  When the first
    entry is the slide showing and the second is a slide index, the first
    is dropped and the tick goes to the second, unless that is the slide
    showing as well. *)
Theorem tick_follows_buffer (random : nat -> fraction) (C : Components)
    (st : State) (buf : ref) :
  2 < Slides_getLength C ->
  shuffleBuffer st = Some buf ->
  (forall x rest fuel,
     arrays st !! buf = Some (x :: rest) ->
     x < Slides_getLength C -> x <> Controller_getIndex C -> 1 <= fuel ->
     exists st',
       onInterval random fuel C st = Some st' /\
       trace st' = trace st ++ [Splide_go (go_index x)] /\
       shuffleBuffer st' = Some buf /\
       ((Slides_getLength C <= length rest /\ arrays st' !! buf = Some rest /\
         random_calls st' = random_calls st) \/
        (length rest < Slides_getLength C /\
         exists q, q ≡ₚ seq 0 (Slides_getLength C) /\
                   arrays st' !! buf = Some (rest ++ q)))) /\
  (forall x rest fuel,
     arrays st !! buf = Some (Controller_getIndex C :: x :: rest) ->
     Controller_getIndex C < Slides_getLength C ->
     x < Slides_getLength C -> x <> Controller_getIndex C -> 2 <= fuel ->
     exists st',
       onInterval random fuel C st = Some st' /\
       trace st' = trace st ++ [Splide_go (go_index x)] /\
       shuffleBuffer st' = Some buf).
Proof.
  intros Hn Hbuf.
  assert (Hone : forall x rest fuel (h : list (list nat)) calls,
    h !! buf = Some (x :: rest) ->
    x < Slides_getLength C -> x <> Controller_getIndex C -> 1 <= fuel ->
    exists h' calls',
      drawLoop random fuel C (Slides_getLength C) buf h calls
      = Some (Some x, buf, h', calls') /\
      ((Slides_getLength C <= length rest /\ h' !! buf = Some rest /\ calls' = calls) \/
       (length rest < Slides_getLength C /\
        exists q, q ≡ₚ seq 0 (Slides_getLength C) /\ h' !! buf = Some (rest ++ q)))).
  { intros x rest fuel h calls Hb Hx Hne Hfuel.
    assert (Hlt : buf < length h) by (by eapply lookup_lt_Some).
    destruct (draw_head random C buf h calls x rest Hlt (deref_lookup _ _ _ Hb) Hx)
      as (h' & calls' & Hdraw & Hlt' & Hcase).
    exists h', calls'. split.
    - destruct fuel as [|fuel]; [lia|]. cbn [drawLoop]. rewrite Hdraw.
      by rewrite decide_False by congruence.
    - rewrite (lookup_deref h' buf Hlt').
      destruct Hcase as [(? & -> & ->)|(? & _ & q & ? & ->)]; [by left|].
      right. split; [done|]. by exists q. }
  split.
  - intros x rest fuel Hb Hx Hne Hfuel.
    destruct (Hone x rest fuel (arrays st) (random_calls st) Hb Hx Hne Hfuel)
      as (h' & calls' & Hloop & Hcase).
    exists (call (Splide_go (go_index x)) (set_shuffle (Some buf) h' calls' st)).
    split; [|done].
    unfold onInterval. rewrite Hbuf.
    destruct (Nat.leb_spec (Slides_getLength C) 2) as [?|_]; [lia|].
    by rewrite Hloop.
  - intros x rest fuel Hb Hc Hx Hne Hfuel.
    assert (Hlt : buf < length (arrays st)) by (by eapply lookup_lt_Some).
    destruct (draw_head random C buf (arrays st) (random_calls st)
                (Controller_getIndex C) (x :: rest) Hlt (deref_lookup _ _ _ Hb) Hc)
      as (h1 & calls1 & Hdraw & Hlt1 & Hcase).
    assert (Hb1 : exists rest1, h1 !! buf = Some (x :: rest1)).
    { rewrite (lookup_deref h1 buf Hlt1).
      destruct Hcase as [(_ & -> & _)|(_ & _ & q & _ & ->)]; eauto. }
    destruct Hb1 as [rest1 Hb1].
    destruct fuel as [|fuel]; [lia|].
    destruct (Hone x rest1 fuel h1 calls1 Hb1 Hx Hne ltac:(lia))
      as (h' & calls' & Hloop & _).
    exists (call (Splide_go (go_index x)) (set_shuffle (Some buf) h' calls' st)).
    split; [|done].
    unfold onInterval. rewrite Hbuf.
    destruct (Nat.leb_spec (Slides_getLength C) 2) as [?|_]; [lia|].
    cbn [drawLoop]. rewrite Hdraw.
    rewrite decide_True by done. by rewrite Hloop.
Qed.

Lemma tick_follows_buffer_witness :
  let st := set_shuffle (Some 0) [[0; 2; 1; 0; 1; 2]] 0
              (mount example_options example_components
                 (Autoplay example_options None)) in
  2 < Slides_getLength example_components /\
  shuffleBuffer st = Some 0 /\
  arrays st !! 0 = Some [0; 2; 1; 0; 1; 2] /\
  exists st',
    onInterval example_random 2 example_components st = Some st' /\
    trace st' = trace st ++ [Splide_go (go_index 2)] /\
    shuffleBuffer st' = Some 0.
Proof.
  intros st.
  assert (Hn : 2 < Slides_getLength example_components) by (simpl; lia).
  split; [exact Hn|]. split; [reflexivity|]. split; [reflexivity|].
  refine (proj2 (tick_follows_buffer example_random example_components st 0
                   Hn eq_refl) 2 [1; 0; 1; 2] 2 eq_refl _ _ _ _).
  - simpl. lia.
  - simpl. lia.
  - discriminate.
  - lia.
Defined.
